(** * A doubly-linked list of heap-allocated strings (challenges/dll.c)

    The C program keeps its nodes in the malloc heap and rewires raw
    [prev]/[next] pointers.  The embedding below keeps that shape: a heap
    of blocks addressed by locations, [NULL] as the absent pointer, and
    every function of the source written in a state-and-fault monad over
    that heap, so that a null dereference, a write past the end of a
    payload buffer or a signed overflow shows up as a result of its own
    instead of being silently defined away. *)

From stdpp Require Import base gmap strings list pretty.
From Stdlib Require Import ZArith Lia.

Local Open Scope Z_scope.

(** ** Machine-level data *)

(** Heap locations.  A pointer is either [NULL] or a location. *)
Abbreviation loc := positive.
Definition ptr := option loc.
Abbreviation NULL := (@None positive).

(** [const int MAX_DATA_LEN = 100;] and the range of the C type [int]. *)
Definition MAX_DATA_LEN : Z := 100.
Definition INT_MAX : Z := 2147483647.
Definition INT_MIN : Z := -2147483648.

(** [struct Node { char *data; struct Node *prev; struct Node *next; }] *)
Record Node := mkNode { data : ptr; prev : ptr; next : ptr }.

(** [struct DoublyLinkedList { Node *head; Node *tail; int len; }].
    The list header is the one object every function receives through
    [dll]; it is threaded as a value, the nodes it points to live in the
    heap. *)
Record DoublyLinkedList := mkDLL { head : ptr; tail : ptr; len : Z }.

(** A heap block is a node or a character buffer.  A buffer records the
    number of bytes it was allocated with and the C string it holds (the
    characters before the terminating zero byte; a [char *] argument of
    the source is likewise a [string] of the characters before it). *)
Inductive block :=
| BNode (n : Node)
| BChars (cap : Z) (s : string).

(** The program state: the heap and what has been printed so far. *)
Record world := World { mem : gmap positive block; console : string }.

Definition set_mem (m : gmap positive block) (w : world) : world :=
  World m (console w).

(** The ways the C program can leave defined behaviour. *)
Inductive fault :=
| NullDeref       (* access through NULL *)
| BadPointer      (* access to or free of a block that is not live *)
| BufferOverrun   (* strcpy past the end of the destination *)
| IntOverflow.    (* signed overflow of an int *)

Inductive outcome (A : Type) :=
| Ok (a : A)
| UB (f : fault)
| Diverges.
Arguments Ok {A} a.
Arguments UB {A} f.
Arguments Diverges {A}.

(** ** The monad of the program: state passing with faults *)

Definition M (A : Type) : Type := world → outcome (A * world).

Definition ret {A} (a : A) : M A := λ w, Ok (a, w).

Definition bind {A B} (m : M A) (f : A → M B) : M B :=
  λ w, match m w with
       | Ok (a, w') => f a w'
       | UB e => UB e
       | Diverges => Diverges
       end.

Definition fail {A} (e : fault) : M A := λ _, UB e.

Declare Scope prog_scope.
Delimit Scope prog_scope with prog.
Notation "'let*' x := m 'in' k" := (bind m (λ x, k))
  (at level 10, x name, m at level 100, k at level 200) : prog_scope.
Notation "m ;;; k" := (bind m (λ _, k))
  (at level 100, k at level 200, right associativity) : prog_scope.
Local Open Scope prog_scope.

(** *** Loops

    [loop n body l] runs [body] from the locals [l] until it asks to
    leave ([inr]), for at most [2 ^ n] rounds; the doubling keeps the
    bound cheap to write down and costs nothing when the loop leaves
    early. *)
Section Loop.
Context {L R : Type}.
Variable body : L → M (L + R).

Fixpoint loop (n : nat) (l : L) : M (L + R) :=
  match n with
  | O => body l
  | S m => let* r := loop m l in
           match r with
           | inl l' => loop m l'
           | inr x => ret (inr x)
           end
  end.

(** A loop that has not left after all its rounds never would. *)
Definition run_loop (n : nat) (l : L) : M R :=
  let* r := loop n l in
  match r with
  | inr x => ret x
  | inl _ => λ _, Diverges
  end.

(** What a result [o] of the loop has to satisfy when it was started
    with the invariant [I] at the variant [v]: a round that goes on keeps
    the invariant at a variant smaller by [k] at least, any way of leaving
    establishes [Q]. *)
Definition loop_post (I : Z → L → world → Prop)
    (Q : outcome (R * world) → Prop) (k v : Z)
    (o : outcome ((L + R) * world)) : Prop :=
  match o with
  | Ok (inl l', w') => ∃ v', I v' l' w' ∧ v' + k ≤ v
  | Ok (inr x, w') => Q (Ok (x, w'))
  | UB e => Q (UB e)
  | Diverges => Q Diverges
  end.
End Loop.

(** ** Primitive operations of C *)

(** [int] arithmetic: a result outside the range of [int] is undefined. *)
Definition int_add (a b : Z) : M Z :=
  if bool_decide (INT_MIN ≤ a + b ≤ INT_MAX) then ret (a + b)
  else fail IntOverflow.

Definition int_sub (a b : Z) : M Z :=
  if bool_decide (INT_MIN ≤ a - b ≤ INT_MAX) then ret (a - b)
  else fail IntOverflow.

(** [calloc]: a fresh location holding a zeroed block.  Allocation is
    taken to succeed; the source never tests what [calloc] returns. *)
Definition calloc (b : block) : M ptr :=
  λ w, let a := fresh (dom (mem w)) in
       Ok (Some a, set_mem (<[a := b]> (mem w)) w).

(** [free]: [free(NULL)] does nothing; the block must be live. *)
Definition free (p : ptr) : M unit :=
  λ w, match p with
       | None => Ok (tt, w)
       | Some a =>
           match mem w !! a with
           | Some _ => Ok (tt, set_mem (base.delete a (mem w)) w)
           | None => UB BadPointer
           end
       end.

(** Reading and writing a node through a pointer. *)
Definition load_node (p : ptr) : M Node :=
  λ w, match p with
       | None => UB NullDeref
       | Some a =>
           match mem w !! a with
           | Some (BNode n) => Ok (n, w)
           | _ => UB BadPointer
           end
       end.

Definition store_node (p : ptr) (n : Node) : M unit :=
  λ w, match p with
       | None => UB NullDeref
       | Some a =>
           match mem w !! a with
           | Some (BNode _) => Ok (tt, set_mem (<[a := BNode n]> (mem w)) w)
           | _ => UB BadPointer
           end
       end.

(** [p->data = v], [p->prev = v], [p->next = v] *)
Definition set_data (p v : ptr) : M unit :=
  let* n := load_node p in store_node p (mkNode v (prev n) (next n)).
Definition set_prev (p v : ptr) : M unit :=
  let* n := load_node p in store_node p (mkNode (data n) v (next n)).
Definition set_next (p v : ptr) : M unit :=
  let* n := load_node p in store_node p (mkNode (data n) (prev n) v).

(** Reading the C string a [char *] points to. *)
Definition load_chars (p : ptr) : M string :=
  λ w, match p with
       | None => UB NullDeref
       | Some a =>
           match mem w !! a with
           | Some (BChars _ s) => Ok (s, w)
           | _ => UB BadPointer
           end
       end.

(** [strcpy (dst, src)] writes the characters of [src] and the
    terminating zero byte; the destination must have room for them. *)
Definition strcpy (dst : ptr) (src : string) : M unit :=
  λ w, match dst with
       | None => UB NullDeref
       | Some a =>
           match mem w !! a with
           | Some (BChars cap _) =>
               if bool_decide (Z.of_nat (String.length src) + 1 ≤ cap)
               then Ok (tt, set_mem (<[a := BChars cap src]> (mem w)) w)
               else UB BufferOverrun
           | _ => UB BadPointer
           end
       end.

(** [printf]: the text, already formatted, goes to the console. *)
Definition printf (s : string) : M unit :=
  λ w, Ok (tt, World (mem w) (console w +:+ s)).

Definition newline : string := String (Ascii.ascii_of_nat 10) EmptyString.

(** ** The functions of dll.c *)

Definition create_node (_data : string) (_prev _next : ptr) : M ptr :=
  let* n := calloc (BNode (mkNode NULL NULL NULL)) in
  let* d := calloc (BChars MAX_DATA_LEN EmptyString) in
  set_data n d;;;
  set_prev n _prev;;;
  set_next n _next;;;
  let* nd := load_node n in
  strcpy (data nd) _data;;;
  ret n.

Definition create_doubly_linked_list (txt : string) : M DoublyLinkedList :=
  let* h := create_node txt NULL NULL in
  ret (mkDLL h h 1).

(** One round of [while (t != NULL) { if (!strcmp (..)) return i; ... }]
    in [find]; the locals are [t] and [i]. *)
Definition find_body (target : string) (st : ptr * Z) : M (ptr * Z + Z) :=
  let '(t, i) := st in
  if bool_decide (t ≠ NULL) then
    let* n := load_node t in
    let* s := load_chars (data n) in
    if bool_decide (s = target) then ret (inr i)
    else
      let* i' := int_add i 1 in
      ret (inl (next n, i'))
  else ret (inr (-1)).

(** [i] starts at 0 and cannot be incremented past [INT_MAX], so the
    loop has at most [2 ^ 31] rounds. *)
Definition find (dll : DoublyLinkedList) (target : string) : M Z :=
  run_loop (find_body target) 31 (head dll, 0).

Definition append (dll : DoublyLinkedList) (txt : string)
  : M DoublyLinkedList :=
  let* dll' :=
    if bool_decide (head dll = NULL) then
      let* new := create_node txt NULL NULL in
      ret (mkDLL new new (len dll))
    else if bool_decide (head dll = tail dll) then
      let* new := create_node txt (head dll) NULL in
      set_next (head dll) new;;;
      ret (mkDLL (head dll) new (len dll))
    else
      let* new := create_node txt (tail dll) NULL in
      set_next (tail dll) new;;;
      ret (mkDLL (head dll) new (len dll)) in
  let* l := int_add (len dll') 1 in
  ret (mkDLL (head dll') (tail dll') l).

(** The texts of [printf ("Cannot insert node to index %d ...\n", indx)]
    and [printf ("No node at index %d.\n", indx)]. *)
Definition insert_message (indx : Z) : string :=
  "Cannot insert node to index " +:+ pretty indx +:+
  " since it is greater than the length of the doubly-linked list."
  +:+ newline.
Definition delete_message (indx : Z) : string :=
  "No node at index " +:+ pretty indx +:+ "." +:+ newline.

(** One round of [while (i != indx) { t = t->next; i++; }], the loop
    that [insert] and [delete] both use to reach the node at [indx]. *)
Definition seek_body (indx : Z) (st : ptr * Z) : M (ptr * Z + ptr) :=
  let '(t, i) := st in
  if bool_decide (i ≠ indx) then
    let* n := load_node t in
    let* i' := int_add i 1 in
    ret (inl (next n, i'))
  else ret (inr t).

Definition seek (t : ptr) (indx : Z) : M ptr :=
  run_loop (seek_body indx) 31 (t, 0).

Definition insert (dll : DoublyLinkedList) (indx : Z) (txt : string)
  : M DoublyLinkedList :=
  if bool_decide (indx > len dll) then
    printf (insert_message indx);;;
    ret dll
  else if bool_decide (indx = len dll) then
    append dll txt
  else
    let* t := seek (head dll) indx in
    let* nt := load_node t in
    let* new := create_node txt (prev nt) t in
    let* nt := load_node t in
    (if bool_decide (prev nt ≠ NULL) then set_next (prev nt) new
     else ret tt);;;
    set_prev t new;;;
    let dll1 := if bool_decide (indx = 0)
                then mkDLL new (tail dll) (len dll) else dll in
    let dll2 := if bool_decide (indx = len dll1)
                then mkDLL (head dll1) new (len dll1) else dll1 in
    let* l := int_add (len dll2) 1 in
    ret (mkDLL (head dll2) (tail dll2) l).

Definition delete (dll : DoublyLinkedList) (indx : Z) : M DoublyLinkedList :=
  if bool_decide (indx >= len dll) then
    printf (delete_message indx);;;
    ret dll
  else
    let* t := seek (head dll) indx in
    if bool_decide (len dll = 1) then
      let* l := int_sub (len dll) 1 in
      free t;;;
      ret (mkDLL NULL NULL l)
    else
      let* dll' :=
        if bool_decide (indx = 0) then
          let* nt := load_node t in
          set_prev (next nt) NULL;;;
          let* nt := load_node t in
          ret (mkDLL (next nt) (tail dll) (len dll))
        else
          let* m := int_sub (len dll) 1 in
          if bool_decide (indx = m) then
            let* nt := load_node t in
            set_next (prev nt) NULL;;;
            let* nt := load_node t in
            ret (mkDLL (head dll) (prev nt) (len dll))
          else
            let* nt := load_node t in
            set_next (prev nt) (next nt);;;
            let* nt := load_node t in
            set_prev (next nt) (prev nt);;;
            ret dll in
      let* l := int_sub (len dll') 1 in
      free t;;;
      ret (mkDLL (head dll') (tail dll') l).

(** One round of [do { printf ("%s->", t->data); t = t->next; }
    while (t != NULL);] *)
Definition traverse_body (t : ptr) : M (ptr + unit) :=
  let* n := load_node t in
  let* s := load_chars (data n) in
  printf (s +:+ "->");;;
  if bool_decide (next n ≠ NULL) then ret (inl (next n)) else ret (inr tt).

(** The loop has no counter: on a chain that runs into a cycle it never
    leaves.  It does not change the heap, so once it has made more rounds
    than the heap has blocks it has seen some node twice. *)
Definition traverse_dll (dll : DoublyLinkedList) : M unit :=
  λ w, (run_loop traverse_body (size (mem w)) (head dll);;;
        printf ("NULL" +:+ newline)) w.

(** The empty heap with a blank console, and the list with no node. *)
Definition world0 : world := World ∅ EmptyString.
Definition empty_dll : DoublyLinkedList := mkDLL NULL NULL 0.


(** ** The shape of a list in the heap *)

(** One element of a list as it lies in the heap: the location of its
    node, the location of its payload buffer, and the payload. *)
Record cell := Cell { c_node : loc; c_buf : loc; c_text : string }.

Definition nodes (cs : list cell) : list loc := c_node <$> cs.
Definition texts (cs : list cell) : list string := c_text <$> cs.

(** The pointer to the first node of [cs], and [nx] when there is none;
    the pointer to the last node of [cs], and [pv] when there is none. *)
Definition first_ptr (cs : list cell) (nx : ptr) : ptr :=
  match cs with
  | [] => nx
  | c :: _ => Some (c_node c)
  end.

Fixpoint last_ptr (cs : list cell) (pv : ptr) : ptr :=
  match cs with
  | [] => pv
  | c :: cs' => last_ptr cs' (Some (c_node c))
  end.

(** The block a node of the chain holds. *)
Definition node_of (c : cell) (pv nx : ptr) : block :=
  BNode (mkNode (Some (c_buf c)) pv nx).

(** [dlseg m pv cs nx]: in the heap [m] the cells [cs] are chained in
    both directions, the first one pointing back to [pv] and the last one
    forward to [nx]; each payload buffer holds its text. *)
Fixpoint dlseg (m : gmap positive block) (pv : ptr) (cs : list cell)
    (nx : ptr) : Prop :=
  match cs with
  | [] => True
  | c :: cs' =>
      m !! c_node c = Some (node_of c pv (first_ptr cs' nx)) ∧
      m !! c_buf c = Some (BChars MAX_DATA_LEN (c_text c)) ∧
      dlseg m (Some (c_node c)) cs' nx
  end.

(** The data-model invariant: the header [d] describes exactly the chain
    [cs], whose nodes are pairwise distinct, and [len] is its length. *)
Definition dll_repr (w : world) (d : DoublyLinkedList) (cs : list cell)
  : Prop :=
  dlseg (mem w) NULL cs NULL ∧
  NoDup (nodes cs) ∧
  head d = first_ptr cs NULL ∧
  tail d = last_ptr cs NULL ∧
  len d = Z.of_nat (length cs) ∧
  len d ≤ INT_MAX.

#[global] Instance Node_eq_dec : EqDecision Node.
Proof. solve_decision. Defined.
#[global] Instance block_eq_dec : EqDecision block.
Proof. solve_decision. Defined.
#[global] Instance DoublyLinkedList_eq_dec : EqDecision DoublyLinkedList.
Proof. solve_decision. Defined.

#[global] Instance dlseg_dec m pv cs nx : Decision (dlseg m pv cs nx).
Proof.
  revert pv. induction cs as [|c cs IH]; intros pv; simpl; apply _.
Defined.

#[global] Instance dll_repr_dec w d cs : Decision (dll_repr w d cs).
Proof. unfold dll_repr. apply _. Defined.

(** Locations that do not hold a payload buffer: a write to one of them
    leaves every payload as it is. *)
Definition not_chars (m : gmap positive block) (a : loc) : Prop :=
  ∀ cap s, m !! a ≠ Some (BChars cap s).


(** The locations [create_node] obtains from its two calls of [calloc],
    the cell it builds there, and the world with that cell added. *)
Definition node_loc (w : world) : loc := fresh (dom (mem w)).
Definition buf_loc (w : world) : loc :=
  fresh (dom (<[node_loc w := BNode (mkNode NULL NULL NULL)]> (mem w))).
Definition new_cell (w : world) (txt : string) : cell :=
  Cell (node_loc w) (buf_loc w) txt.
Definition with_cell (w : world) (c : cell) (pv nx : ptr) : world :=
  set_mem (<[c_buf c := BChars MAX_DATA_LEN (c_text c)]>
             (<[c_node c := node_of c pv nx]> (mem w))) w.

(** What [find] is to return for the payloads [xs], head first: the
    position of the first one equal to [target], and -1 when there is
    none. *)
Definition find_result (target : string) (xs : list string) (r : Z) : Prop :=
  (r = -1 ∧ target ∉ xs) ∨
  (0 ≤ r ∧ xs !! Z.to_nat r = Some target ∧
   ∀ j, (j < Z.to_nat r)%nat → xs !! j ≠ Some target).

(** The text [traverse_dll] prints for the payloads [xs]: each one
    followed by an arrow, then the end marker. *)
Definition arrows (xs : list string) : string :=
  foldr (λ s acc, (s +:+ "->") +:+ acc) EmptyString xs.
Definition render (xs : list string) : string :=
  arrows xs +:+ ("NULL" +:+ newline).

(** ** The structural invariants, read off the pointers *)

(** The node a location holds, if it holds one. *)
Definition node_at (w : world) (a : loc) : option Node :=
  match mem w !! a with
  | Some (BNode n) => Some n
  | _ => None
  end.

(** The nodes met when following [next] from a pointer. *)
Inductive reachable (w : world) : ptr → loc → Prop :=
| reach_here a n :
    node_at w a = Some n → reachable w (Some a) a
| reach_next a n b :
    node_at w a = Some n → reachable w (next n) b → reachable w (Some a) b.

(** [len == 0] exactly when head and tail are both absent; from two nodes
    on, the head has no predecessor, the tail has no successor, and
    every node of the list other than the head is the successor of its
    predecessor, every node other than the tail the predecessor of its
    successor (so a node strictly inside satisfies both). *)
Definition structural_inv (w : world) (d : DoublyLinkedList) : Prop :=
  (len d = 0 ↔ head d = NULL ∧ tail d = NULL) ∧
  (2 ≤ len d →
   (∃ h n, head d = Some h ∧ node_at w h = Some n ∧ prev n = NULL) ∧
   (∃ t n, tail d = Some t ∧ node_at w t = Some n ∧ next n = NULL) ∧
   ∀ a n, reachable w (head d) a → node_at w a = Some n →
     (Some a ≠ head d →
      ∃ p pn, prev n = Some p ∧ node_at w p = Some pn ∧ next pn = Some a) ∧
     (Some a ≠ tail d →
      ∃ q qn, next n = Some q ∧ node_at w q = Some qn ∧ prev qn = Some a)).

(** A payload that fits its buffer together with the terminating zero. *)
Definition fits (txt : string) : Prop :=
  Z.of_nat (String.length txt) < MAX_DATA_LEN.

(** ** Sequences of calls *)

(** [append] once for each text, in order. *)
Fixpoint append_all (d : DoublyLinkedList) (txts : list string)
  : M DoublyLinkedList :=
  match txts with
  | [] => ret d
  | txt :: txts' => let* d' := append d txt in append_all d' txts'
  end.

(** [delete (n-1)], [delete (n-2)], ..., [delete (0)]. *)
Fixpoint delete_down (d : DoublyLinkedList) (n : nat) : M DoublyLinkedList :=
  match n with
  | O => ret d
  | S k => let* d' := delete d (Z.of_nat k) in delete_down d' k
  end.

(** [insert] as the source has it, with the statement
    [if (indx == dll->len) dll->tail = new;] that follows the splice
    left out. *)
Definition insert_without_tail_update (dll : DoublyLinkedList) (indx : Z)
    (txt : string) : M DoublyLinkedList :=
  if bool_decide (indx > len dll) then
    printf (insert_message indx);;;
    ret dll
  else if bool_decide (indx = len dll) then
    append dll txt
  else
    let* t := seek (head dll) indx in
    let* nt := load_node t in
    let* new := create_node txt (prev nt) t in
    let* nt := load_node t in
    (if bool_decide (prev nt ≠ NULL) then set_next (prev nt) new
     else ret tt);;;
    set_prev t new;;;
    let dll1 := if bool_decide (indx = 0)
                then mkDLL new (tail dll) (len dll) else dll in
    let* l := int_add (len dll1) 1 in
    ret (mkDLL (head dll1) (tail dll1) l).

(** The public mutating operations, as calls with their arguments, and
    the calls whose index is valid for the list [d]; for the two that
    create a node, the payload has to fit its buffer and the counter must
    have room for one more. *)
Inductive call :=
| CallAppend (txt : string)
| CallInsert (indx : Z) (txt : string)
| CallDelete (indx : Z).

Definition run_call (d : DoublyLinkedList) (c : call) : M DoublyLinkedList :=
  match c with
  | CallAppend txt => append d txt
  | CallInsert indx txt => insert d indx txt
  | CallDelete indx => delete d indx
  end.

Definition valid_call (d : DoublyLinkedList) (c : call) : Prop :=
  match c with
  | CallAppend txt => fits txt ∧ len d < INT_MAX
  | CallInsert indx txt => 0 ≤ indx ≤ len d ∧ fits txt ∧ len d < INT_MAX
  | CallDelete indx => 0 ≤ indx < len d
  end.

(** ** Concrete states *)

(** The list the driver of the source builds, [create ("Head")] followed
    by [append ("A")], as it lies in the heap. *)
Definition main_world : world :=
  World (<[4%positive := BChars MAX_DATA_LEN "A"]>
         (<[3%positive := BNode (mkNode (Some 4%positive)
                                        (Some 1%positive) NULL)]>
          (<[2%positive := BChars MAX_DATA_LEN "Head"]>
           (<[1%positive := BNode (mkNode (Some 2%positive) NULL
                                          (Some 3%positive))]> ∅)))) EmptyString.
Definition main_dll : DoublyLinkedList :=
  mkDLL (Some 1%positive) (Some 3%positive) 2.
Definition main_cells : list cell :=
  [Cell 1 2 "Head"; Cell 3 4 "A"].

(** A text of [n] characters. *)
Fixpoint text_of_length (n : nat) : string :=
  match n with
  | O => EmptyString
  | S k => String (Ascii.ascii_of_nat 97) (text_of_length k)
  end.

(** ** The rest of dll.c: teardown and the driver *)

(** One round of [while (t != dll->head) { t = t->prev; free (t->next); }]
    in [free_dll]; [hd] is [dll->head]. *)
Definition free_dll_body (hd : ptr) (t : ptr) : M (ptr + ptr) :=
  if bool_decide (t ≠ hd) then
    let* n := load_node t in
    let t' := prev n in
    let* n' := load_node t' in
    free (next n');;;
    ret (inl t')
  else ret (inr t).

(** [free_dll] walks from the tail to the head and frees every node it
    leaves behind, then the head.  The header itself is a value here, so
    the final [free (dll)] has nothing to release in the heap.  The loop
    has no counter; a round either frees a block or leaves the heap as
    it is, and rounds of the second kind see a node twice after more
    rounds than the heap has blocks, so a loop that is still running
    after [2 ^ (2 * size)] rounds never leaves. *)
Definition free_dll (dll : DoublyLinkedList) : M unit :=
  λ w, (let* t := run_loop (free_dll_body (head dll))
                    (size (mem w) + size (mem w)) (tail dll) in
        free t) w.

(** [main]: build the list of two nodes, print it, print the result of
    a search for a text that is not there, tear the list down, and
    return 0. *)
Definition main : M Z :=
  let* dll := create_doubly_linked_list "Head" in
  let* dll := append dll "A" in
  traverse_dll dll;;;
  let* r := find dll "Ba" in
  printf (pretty r +:+ newline);;;
  free_dll dll;;;
  ret 0.

(** ** The list of payloads a call is to leave *)

(** The effect of each mutating call on the sequence of payloads, head
    first. *)
Definition apply_call (c : call) (xs : list string) : list string :=
  match c with
  | CallAppend txt => xs ++ [txt]
  | CallInsert indx txt =>
      take (Z.to_nat indx) xs ++ txt :: drop (Z.to_nat indx) xs
  | CallDelete indx => base.delete (Z.to_nat indx) xs
  end.
(** ** Running the monad *)

Lemma bind_eq {A B} (m : M A) (f : A → M B) w a w' :
  m w = Ok (a, w') → bind m f w = f a w'.
Proof. unfold bind. by intros ->. Qed.

Lemma bind_UB {A B} (m : M A) (f : A → M B) w e :
  m w = UB e → bind m f w = UB e.
Proof. unfold bind. by intros ->. Qed.

Lemma load_node_eq w a n :
  mem w !! a = Some (BNode n) → load_node (Some a) w = Ok (n, w).
Proof. unfold load_node. by intros ->. Qed.

Lemma store_node_eq w a n n' :
  mem w !! a = Some (BNode n) →
  store_node (Some a) n' w = Ok (tt, set_mem (<[a := BNode n']> (mem w)) w).
Proof. unfold store_node. by intros ->. Qed.

Lemma load_chars_eq w a cap s :
  mem w !! a = Some (BChars cap s) → load_chars (Some a) w = Ok (s, w).
Proof. unfold load_chars. by intros ->. Qed.

Lemma set_data_eq w a n v :
  mem w !! a = Some (BNode n) →
  set_data (Some a) v w
  = Ok (tt, set_mem (<[a := BNode (mkNode v (prev n) (next n))]> (mem w)) w).
Proof.
  intros H. unfold set_data.
  rewrite (bind_eq _ _ _ _ _ (load_node_eq _ _ _ H)).
  by apply store_node_eq with n.
Qed.

Lemma set_prev_eq w a n v :
  mem w !! a = Some (BNode n) →
  set_prev (Some a) v w
  = Ok (tt, set_mem (<[a := BNode (mkNode (data n) v (next n))]> (mem w)) w).
Proof.
  intros H. unfold set_prev.
  rewrite (bind_eq _ _ _ _ _ (load_node_eq _ _ _ H)).
  by apply store_node_eq with n.
Qed.

Lemma set_next_eq w a n v :
  mem w !! a = Some (BNode n) →
  set_next (Some a) v w
  = Ok (tt, set_mem (<[a := BNode (mkNode (data n) (prev n) v)]> (mem w)) w).
Proof.
  intros H. unfold set_next.
  rewrite (bind_eq _ _ _ _ _ (load_node_eq _ _ _ H)).
  by apply store_node_eq with n.
Qed.

Lemma free_eq w a b :
  mem w !! a = Some b →
  free (Some a) w = Ok (tt, set_mem (base.delete a (mem w)) w).
Proof. unfold free. by intros ->. Qed.

Lemma int_add_eq a b w :
  INT_MIN ≤ a + b ≤ INT_MAX → int_add a b w = Ok (a + b, w).
Proof. intros H. unfold int_add. by rewrite bool_decide_eq_true_2. Qed.

Lemma int_sub_eq a b w :
  INT_MIN ≤ a - b ≤ INT_MAX → int_sub a b w = Ok (a - b, w).
Proof. intros H. unfold int_sub. by rewrite bool_decide_eq_true_2. Qed.

Lemma mem_set_mem m w : mem (set_mem m w) = m.
Proof. done. Qed.

Lemma set_mem_set_mem m m' w : set_mem m (set_mem m' w) = set_mem m w.
Proof. done. Qed.

Lemma set_mem_id w : set_mem (mem w) w = w.
Proof. by destruct w. Qed.

(** Run the first command of a sequence, given how to evaluate it. *)
Ltac mstep tac := erewrite bind_eq; [|solve [tac]].
Ltac int_range := unfold INT_MIN, INT_MAX, MAX_DATA_LEN in *; lia.

(** *** Reasoning about loops: an invariant and a variant *)

Section LoopRules.
Context {L R : Type}.
Variable body : L → M (L + R).
Variable I : Z → L → world → Prop.
Variable Q : outcome (R * world) → Prop.

Hypothesis variant_nonneg : ∀ v l w, I v l w → 0 ≤ v.
Hypothesis body_spec : ∀ v l w, I v l w → loop_post I Q 1 v (body l w).

Lemma loop_rounds n v l w :
  I v l w → loop_post I Q (2 ^ Z.of_nat n) v (loop body n l w).
Proof.
  revert v l w. induction n as [|n IH]; intros v l w HI.
  - by apply body_spec.
  - cbn [loop]. unfold bind.
    pose proof (IH v l w HI) as H1.
    destruct (loop body n l w) as [[[l1|x] w1]|e|]; simpl in *; try done.
    destruct H1 as (v1 & HI1 & Hm1).
    pose proof (IH v1 l1 w1 HI1) as H2.
    destruct (loop body n l1 w1) as [[[l2|x] w2]|e|]; simpl in *; try done.
    destruct H2 as (v2 & HI2 & Hm2). exists v2. split; [done|].
    rewrite Nat2Z.inj_succ, Z.pow_succ_r by lia. lia.
Qed.

Lemma run_loop_rule n v l w :
  I v l w → v < 2 ^ Z.of_nat n → Q (run_loop body n l w).
Proof.
  intros HI Hlt. unfold run_loop, bind.
  pose proof (loop_rounds n v l w HI) as H.
  destruct (loop body n l w) as [[[l1|x] w1]|e|]; simpl in *; try done.
  destruct H as (v1 & HI1 & Hm1). apply variant_nonneg in HI1. lia.
Qed.
End LoopRules.

(** A loop whose first round faults has that fault as its result. *)
Lemma run_loop_UB {L R} (body : L → M (L + R)) n l w e :
  body l w = UB e → run_loop body n l w = UB e.
Proof.
  intros H. unfold run_loop. apply bind_UB.
  induction n as [|n IH]; [done|]. cbn [loop]. by apply bind_UB.
Qed.

Lemma first_ptr_app l1 l2 nx :
  first_ptr (l1 ++ l2) nx = first_ptr l1 (first_ptr l2 nx).
Proof. by destruct l1. Qed.

Lemma last_ptr_app l1 l2 pv :
  last_ptr (l1 ++ l2) pv = last_ptr l2 (last_ptr l1 pv).
Proof. revert pv. induction l1 as [|c l1 IH]; intros pv; simpl; auto. Qed.

Lemma last_ptr_snoc l c pv : last_ptr (l ++ [c]) pv = Some (c_node c).
Proof. by rewrite last_ptr_app. Qed.

Lemma dlseg_app m pv l1 l2 nx :
  dlseg m pv (l1 ++ l2) nx ↔
  dlseg m pv l1 (first_ptr l2 nx) ∧ dlseg m (last_ptr l1 pv) l2 nx.
Proof.
  revert pv. induction l1 as [|c l1 IH]; intros pv; simpl.
  - tauto.
  - rewrite first_ptr_app, IH. tauto.
Qed.

(** Every node and every buffer of a chain is live. *)
Lemma dlseg_node_live m pv cs nx a :
  dlseg m pv cs nx → a ∈ nodes cs → ∃ n, m !! a = Some (BNode n).
Proof.
  revert pv. induction cs as [|c cs IH]; intros pv H Ha; simpl in *.
  - by apply elem_of_nil in Ha.
  - destruct H as (Hn & _ & Hrest).
    apply elem_of_cons in Ha as [->|Ha]; [by eexists|by eapply IH].
Qed.

Lemma dlseg_fresh m pv cs nx a :
  dlseg m pv cs nx → m !! a = None → a ∉ nodes cs.
Proof.
  intros H Ha Hin. destruct (dlseg_node_live _ _ _ _ _ H Hin) as [n Hn].
  by rewrite Ha in Hn.
Qed.

(** The frame rules: writing, allocating or freeing a location that is
    neither a node nor a buffer of the chain leaves the chain alone. *)
Lemma dlseg_insert_frame m pv cs nx a b :
  dlseg m pv cs nx → a ∉ nodes cs → not_chars m a →
  dlseg (<[a := b]> m) pv cs nx.
Proof.
  revert pv. induction cs as [|c cs IH]; intros pv H Ha Hc; simpl in *.
  - done.
  - destruct H as (Hn & Hb & Hrest).
    apply not_elem_of_cons in Ha as [Hne Ha].
    split_and!.
    + by rewrite lookup_insert_ne.
    + rewrite lookup_insert_ne; [done|]. intros ->. by eapply Hc.
    + by apply IH.
Qed.

Lemma dlseg_delete_frame m pv cs nx a :
  dlseg m pv cs nx → a ∉ nodes cs → not_chars m a →
  dlseg (base.delete a m) pv cs nx.
Proof.
  revert pv. induction cs as [|c cs IH]; intros pv H Ha Hc; simpl in *.
  - done.
  - destruct H as (Hn & Hb & Hrest).
    apply not_elem_of_cons in Ha as [Hne Ha].
    split_and!.
    + by rewrite lookup_delete_ne.
    + rewrite lookup_delete_ne; [done|]. intros ->. by eapply Hc.
    + by apply IH.
Qed.

Lemma not_chars_None m a : m !! a = None → not_chars m a.
Proof. intros H cap s. by rewrite H. Qed.

Lemma not_chars_node m a n : m !! a = Some (BNode n) → not_chars m a.
Proof. intros H cap s. by rewrite H. Qed.

Lemma not_chars_insert m a b c :
  not_chars m a → (∀ cap s, c ≠ BChars cap s) →
  not_chars (<[b := c]> m) a.
Proof.
  intros H Hc cap s. destruct (decide (b = a)) as [->|Hne].
  - rewrite lookup_insert_eq. intros [= ->]. by eapply Hc.
  - rewrite lookup_insert_ne by done. apply H.
Qed.

(** ** Allocation *)

Lemma calloc_eq b w :
  calloc b w
  = Ok (Some (fresh (dom (mem w))),
        set_mem (<[fresh (dom (mem w)) := b]> (mem w)) w).
Proof. done. Qed.

Lemma node_loc_fresh w : mem w !! node_loc w = None.
Proof. unfold node_loc. apply (not_elem_of_dom (D := gset positive)), is_fresh. Qed.

Lemma buf_loc_fresh w : mem w !! buf_loc w = None.
Proof.
  pose proof (is_fresh (dom (<[node_loc w := BNode (mkNode NULL NULL NULL)]>
                              (mem w)))) as H.
  fold (buf_loc w) in H. rewrite dom_insert_L in H.
  apply not_elem_of_dom. set_solver.
Qed.

Lemma buf_loc_node_loc w : buf_loc w ≠ node_loc w.
Proof.
  pose proof (is_fresh (dom (<[node_loc w := BNode (mkNode NULL NULL NULL)]>
                              (mem w)))) as H.
  fold (buf_loc w) in H. rewrite dom_insert_L in H. set_solver.
Qed.

Lemma create_node_eq w txt pv nx :
  Z.of_nat (String.length txt) < MAX_DATA_LEN →
  create_node txt pv nx w
  = Ok (Some (node_loc w), with_cell w (new_cell w txt) pv nx).
Proof.
  intros Hlen. unfold create_node.
  rewrite (bind_eq _ _ _ _ _ (calloc_eq _ _)). fold (node_loc w).
  rewrite (bind_eq _ _ _ _ _ (calloc_eq _ _)).
  rewrite mem_set_mem, set_mem_set_mem. fold (buf_loc w).
  pose proof (buf_loc_node_loc w) as Hne.
  set (a := node_loc w) in *. set (b := buf_loc w) in *.
  erewrite bind_eq; cycle 1.
  { apply set_data_eq. rewrite mem_set_mem.
    rewrite lookup_insert_ne by done. apply lookup_insert_eq. }
  rewrite mem_set_mem, set_mem_set_mem. cbn [prev next data].
  erewrite bind_eq; cycle 1.
  { apply set_prev_eq. rewrite mem_set_mem. apply lookup_insert_eq. }
  rewrite mem_set_mem, set_mem_set_mem. cbn [prev next data].
  erewrite bind_eq; cycle 1.
  { apply set_next_eq. rewrite mem_set_mem. apply lookup_insert_eq. }
  rewrite mem_set_mem, set_mem_set_mem. cbn [prev next data].
  erewrite bind_eq; cycle 1.
  { apply load_node_eq. rewrite mem_set_mem. apply lookup_insert_eq. }
  cbn [prev next data].
  unfold bind, strcpy. rewrite mem_set_mem.
  rewrite !insert_insert_eq.
  rewrite lookup_insert_ne by done. rewrite lookup_insert_eq.
  rewrite bool_decide_eq_true_2 by lia.
  rewrite set_mem_set_mem. unfold ret, with_cell, new_cell, node_of.
  cbn [c_node c_buf c_text]. do 2 f_equal. f_equal.
  subst a b. apply map_eq. intros i.
  destruct (decide (i = buf_loc w)) as [->|Hb].
  { by rewrite !lookup_insert_eq. }
  rewrite !(lookup_insert_ne _ (buf_loc w)) by done.
  destruct (decide (i = node_loc w)) as [->|Ha].
  { by rewrite !lookup_insert_eq. }
  by rewrite !lookup_insert_ne.
Qed.

Lemma create_node_overrun w txt pv nx :
  MAX_DATA_LEN ≤ Z.of_nat (String.length txt) →
  create_node txt pv nx w = UB BufferOverrun.
Proof.
  intros Hlen. unfold create_node.
  rewrite (bind_eq _ _ _ _ _ (calloc_eq _ _)). fold (node_loc w).
  rewrite (bind_eq _ _ _ _ _ (calloc_eq _ _)).
  rewrite mem_set_mem, set_mem_set_mem. fold (buf_loc w).
  pose proof (buf_loc_node_loc w) as Hne.
  erewrite bind_eq; cycle 1.
  { apply set_data_eq. rewrite mem_set_mem.
    rewrite lookup_insert_ne by done. apply lookup_insert_eq. }
  rewrite mem_set_mem, set_mem_set_mem. cbn [prev next data].
  erewrite bind_eq; cycle 1.
  { apply set_prev_eq. rewrite mem_set_mem. apply lookup_insert_eq. }
  rewrite mem_set_mem, set_mem_set_mem. cbn [prev next data].
  erewrite bind_eq; cycle 1.
  { apply set_next_eq. rewrite mem_set_mem. apply lookup_insert_eq. }
  rewrite mem_set_mem, set_mem_set_mem. cbn [prev next data].
  erewrite bind_eq; cycle 1.
  { apply load_node_eq. rewrite mem_set_mem. apply lookup_insert_eq. }
  cbn [prev next data].
  unfold bind, strcpy. rewrite mem_set_mem.
  rewrite !insert_insert_eq.
  rewrite lookup_insert_ne by done. rewrite lookup_insert_eq.
  rewrite bool_decide_eq_false_2 by lia. done.
Qed.

(** ** Walking a chain *)

Lemma dlseg_mid m pv l1 c l2 nx :
  dlseg m pv (l1 ++ c :: l2) nx →
  m !! c_node c = Some (node_of c (last_ptr l1 pv) (first_ptr l2 nx)) ∧
  m !! c_buf c = Some (BChars MAX_DATA_LEN (c_text c)).
Proof. rewrite dlseg_app. simpl. tauto. Qed.

Lemma dlseg_at m pv cs nx i c :
  dlseg m pv cs nx → cs !! i = Some c →
  m !! c_node c
  = Some (node_of c (last_ptr (take i cs) pv) (first_ptr (drop (S i) cs) nx)) ∧
  m !! c_buf c = Some (BChars MAX_DATA_LEN (c_text c)).
Proof.
  intros H Hi. rewrite <- (take_drop_middle cs i c Hi) in H.
  by apply dlseg_mid in H.
Qed.

Lemma first_ptr_drop cs i c :
  cs !! i = Some c → first_ptr (drop i cs) NULL = Some (c_node c).
Proof. intros Hi. by rewrite (drop_S cs c i Hi). Qed.

Lemma first_ptr_drop_ge cs i :
  (length cs ≤ i)%nat → first_ptr (drop i cs) NULL = NULL.
Proof. intros Hi. by rewrite drop_ge. Qed.

Lemma pow2_31 : 2 ^ Z.of_nat 31 = 2147483648.
Proof. done. Qed.

(** The loop of [insert] and [delete] on a well-formed chain, for an
    index inside it: it stops at the node with that index and changes
    nothing. *)
Lemma seek_eq w cs indx :
  dlseg (mem w) NULL cs NULL →
  0 ≤ indx ≤ Z.of_nat (length cs) → indx ≤ INT_MAX →
  seek (first_ptr cs NULL) indx w
  = Ok (first_ptr (drop (Z.to_nat indx) cs) NULL, w).
Proof.
  intros Hseg Hindx Hmax. unfold seek.
  apply (run_loop_rule (seek_body indx)
           (λ v st w', v = indx - st.2 ∧ w' = w ∧ 0 ≤ st.2 ≤ indx ∧
                       st.1 = first_ptr (drop (Z.to_nat st.2) cs) NULL)
           (λ o, o = Ok (first_ptr (drop (Z.to_nat indx) cs) NULL, w)))
    with (v := indx).
  - intros v [t i] w' (-> & _ & Hi & _). simpl in *. lia.
  - intros v [t i] w' (-> & -> & Hi & Ht). simpl in *.
    case_bool_decide as Hne.
    + destruct (lookup_lt_is_Some_2 cs (Z.to_nat i)) as [c Hc]; [lia|].
      rewrite (first_ptr_drop _ _ _ Hc) in Ht. subst t.
      destruct (dlseg_at _ _ _ _ _ _ Hseg Hc) as [Hn _].
      rewrite (bind_eq _ _ _ _ _ (load_node_eq _ _ _ Hn)).
      mstep ltac:(apply int_add_eq; int_range).
      simpl. eexists. split; [split_and!; try done; try lia|lia].
      by replace (Z.to_nat (i + 1)) with (S (Z.to_nat i)) by lia.
    + simpl. by subst.
  - simpl. split_and!; try done; lia.
  - rewrite pow2_31. unfold INT_MAX in *. lia.
Qed.

(** The same loop for a negative index: the counter never meets it, and
    the walk runs off the end of the chain. *)
Lemma seek_negative w cs indx :
  dlseg (mem w) NULL cs NULL →
  indx < 0 → Z.of_nat (length cs) ≤ INT_MAX →
  seek (first_ptr cs NULL) indx w = UB NullDeref.
Proof.
  intros Hseg Hindx Hmax. unfold seek.
  apply (run_loop_rule (seek_body indx)
           (λ v st w', v = Z.of_nat (length cs) - st.2 ∧ w' = w ∧
                       0 ≤ st.2 ≤ Z.of_nat (length cs) ∧
                       st.1 = first_ptr (drop (Z.to_nat st.2) cs) NULL)
           (λ o, o = UB NullDeref))
    with (v := Z.of_nat (length cs)).
  - intros v [t i] w' (-> & _ & Hi & _). simpl in *. lia.
  - intros v [t i] w' (-> & -> & Hi & Ht). simpl in *.
    rewrite bool_decide_eq_true_2 by lia.
    destruct (decide (i = Z.of_nat (length cs))) as [->|Hlt].
    + rewrite first_ptr_drop_ge in Ht by lia. by subst t.
    + destruct (lookup_lt_is_Some_2 cs (Z.to_nat i)) as [c Hc]; [lia|].
      rewrite (first_ptr_drop _ _ _ Hc) in Ht. subst t.
      destruct (dlseg_at _ _ _ _ _ _ Hseg Hc) as [Hn _].
      rewrite (bind_eq _ _ _ _ _ (load_node_eq _ _ _ Hn)).
      mstep ltac:(apply int_add_eq; int_range).
      simpl. eexists. split; [split_and!; try done; try lia|lia].
      by replace (Z.to_nat (i + 1)) with (S (Z.to_nat i)) by lia.
  - simpl. split_and!; try done; lia.
  - rewrite pow2_31. unfold INT_MAX in *. lia.
Qed.

(** *** The counting loops always end

    Whatever the heap looks like, the loops of [insert], [delete] and
    [find] leave within [2 ^ 31] rounds: their counter starts at 0, goes
    up by one each round and may not pass [INT_MAX]. *)
Lemma load_node_returns p w : load_node p w ≠ Diverges.
Proof.
  unfold load_node. destruct p as [a|]; [|done].
  by destruct (mem w !! a) as [[n|cap s]|].
Qed.

Lemma load_chars_returns p w : load_chars p w ≠ Diverges.
Proof.
  unfold load_chars. destruct p as [a|]; [|done].
  by destruct (mem w !! a) as [[n|cap s]|].
Qed.

Lemma seek_terminates t indx w : seek t indx w ≠ Diverges.
Proof.
  unfold seek.
  apply (run_loop_rule (seek_body indx)
           (λ v st w', v = INT_MAX - st.2 ∧ 0 ≤ st.2 ≤ INT_MAX)
           (λ o, o ≠ Diverges))
    with (v := INT_MAX).
  - intros v [t' i] w' (-> & Hi). simpl in *. lia.
  - intros v [t' i] w' (-> & Hi). simpl in *.
    case_bool_decide; [|done]. unfold bind.
    destruct (load_node t' w') as [[n w1]| |] eqn:Hload; simpl;
      [|done|by apply load_node_returns in Hload].
    unfold int_add. case_bool_decide as Hr; simpl; [|done].
    eexists. split; [split; [done|]|]; simpl; int_range.
  - simpl. int_range.
  - rewrite pow2_31. int_range.
Qed.

Lemma find_terminates d target w : find d target w ≠ Diverges.
Proof.
  unfold find.
  apply (run_loop_rule (find_body target)
           (λ v st w', v = INT_MAX - st.2 ∧ 0 ≤ st.2 ≤ INT_MAX)
           (λ o, o ≠ Diverges))
    with (v := INT_MAX).
  - intros v [t' i] w' (-> & Hi). simpl in *. lia.
  - intros v [t' i] w' (-> & Hi). simpl in *.
    case_bool_decide; [|done]. unfold bind.
    destruct (load_node t' w') as [[n w1]| |] eqn:Hload; simpl;
      [|done|by apply load_node_returns in Hload].
    destruct (load_chars (data n) w1) as [[s w2]| |] eqn:Hchars; simpl;
      [|done|by apply load_chars_returns in Hchars].
    case_bool_decide; simpl; [done|].
    unfold int_add. case_bool_decide as Hr; simpl; [|done].
    eexists. split; [split; [done|]|]; simpl; int_range.
  - simpl. int_range.
  - rewrite pow2_31. int_range.
Qed.

(** ** find *)

Lemma texts_lookup cs i c : cs !! i = Some c → texts cs !! i = Some (c_text c).
Proof. intros H. unfold texts. by rewrite list_lookup_fmap, H. Qed.

Lemma find_eq w d cs target :
  dll_repr w d cs →
  ∃ r, find d target w = Ok (r, w) ∧ find_result target (texts cs) r.
Proof.
  intros (Hseg & Hnd & Hhd & Htl & Hlen & Hmax). unfold find. rewrite Hhd.
  apply (run_loop_rule (find_body target)
           (λ v st w', v = Z.of_nat (length cs) - st.2 ∧ w' = w ∧
                       0 ≤ st.2 ≤ Z.of_nat (length cs) ∧
                       st.1 = first_ptr (drop (Z.to_nat st.2) cs) NULL ∧
                       ∀ j, (j < Z.to_nat st.2)%nat →
                            texts cs !! j ≠ Some target)
           (λ o, ∃ r, o = Ok (r, w) ∧ find_result target (texts cs) r))
    with (v := Z.of_nat (length cs)).
  - intros v [t i] w' (-> & _ & Hi & _). simpl in *. lia.
  - intros v [t i] w' (-> & -> & Hi & Ht & Hno). simpl in *.
    case_bool_decide as Hnull.
    + destruct (decide (i = Z.of_nat (length cs))) as [->|Hlt].
      { rewrite first_ptr_drop_ge in Ht by lia. by subst t. }
      destruct (lookup_lt_is_Some_2 cs (Z.to_nat i)) as [c Hc]; [lia|].
      rewrite (first_ptr_drop _ _ _ Hc) in Ht. subst t.
      destruct (dlseg_at _ _ _ _ _ _ Hseg Hc) as [Hn Hb].
      rewrite (bind_eq _ _ _ _ _ (load_node_eq _ _ _ Hn)). cbn [data].
      rewrite (bind_eq _ _ _ _ _ (load_chars_eq _ _ _ _ Hb)).
      case_bool_decide as Heq.
      * simpl. exists i. split; [done|]. right. split_and!; [lia| |done].
        rewrite <- Heq. by apply texts_lookup.
      * mstep ltac:(apply int_add_eq; int_range).
        simpl. eexists. split; [split_and!; try done; try lia|lia].
        { by replace (Z.to_nat (i + 1)) with (S (Z.to_nat i)) by lia. }
        intros j Hj. destruct (decide (j = Z.to_nat i)) as [->|Hne].
        { rewrite (texts_lookup _ _ _ Hc). congruence. }
        apply Hno. lia.
    + simpl. exists (-1). split; [done|]. left. split; [done|].
      intros Hin. apply list_elem_of_lookup in Hin as [j Hj].
      assert (j < length (texts cs))%nat as Hjl by by eapply lookup_lt_Some.
      unfold texts in Hjl. rewrite length_fmap in Hjl.
      destruct (decide (i = Z.of_nat (length cs))) as [->|Hlt].
      { apply (Hno j); [lia|done]. }
      destruct (lookup_lt_is_Some_2 cs (Z.to_nat i)) as [c Hc]; [lia|].
      rewrite (first_ptr_drop _ _ _ Hc) in Ht. congruence.
  - simpl. split_and!; try done; lia.
  - rewrite pow2_31. int_range.
Qed.

(** ** traverse_dll *)

Lemma string_app_assoc (s1 s2 s3 : string) :
  (s1 +:+ s2) +:+ s3 = s1 +:+ (s2 +:+ s3).
Proof.
  induction s1 as [|a s1 IH]; [done|].
  change (String a ((s1 +:+ s2) +:+ s3) = String a (s1 +:+ s2 +:+ s3)).
  by f_equal.
Qed.

Lemma string_app_empty_r (s : string) : s +:+ EmptyString = s.
Proof.
  induction s as [|a s IH]; [done|].
  change (String a (s +:+ EmptyString) = String a s). by f_equal.
Qed.

Lemma arrows_snoc xs x : arrows (xs ++ [x]) = arrows xs +:+ (x +:+ "->").
Proof.
  induction xs as [|y xs IH]; simpl.
  - by rewrite string_app_empty_r.
  - by rewrite IH, !string_app_assoc.
Qed.

Lemma printf_eq s w : printf s w = Ok (tt, World (mem w) (console w +:+ s)).
Proof. done. Qed.

Lemma dlseg_nodes_dom m pv cs nx a :
  dlseg m pv cs nx → a ∈ nodes cs → a ∈ dom m.
Proof.
  intros H Ha. destruct (dlseg_node_live _ _ _ _ _ H Ha) as [n Hn].
  apply elem_of_dom. by eexists.
Qed.

Lemma dlseg_length_size m pv cs nx :
  dlseg m pv cs nx → NoDup (nodes cs) → (length cs ≤ size m)%nat.
Proof.
  intros H Hnd.
  rewrite <- (length_fmap c_node cs). fold (nodes cs).
  rewrite <- (size_list_to_set (C := gset positive) (nodes cs) Hnd).
  rewrite <- (size_dom (D := gset positive) m).
  apply subseteq_size. intros a Ha. apply elem_of_list_to_set in Ha.
  by eapply dlseg_nodes_dom.
Qed.

Lemma traverse_dll_eq w d cs :
  dll_repr w d cs → cs ≠ [] →
  traverse_dll d w
  = Ok (tt, World (mem w) (console w +:+ render (texts cs))).
Proof.
  intros (Hseg & Hnd & Hhd & Htl & Hlen & Hmax) Hne. unfold traverse_dll.
  assert (run_loop traverse_body (size (mem w)) (head d) w
          = Ok (tt, World (mem w) (console w +:+ arrows (texts cs)))) as Hrun.
  2:{ rewrite (bind_eq _ _ _ _ _ Hrun), printf_eq. simpl. unfold render.
      by rewrite string_app_assoc. }
  rewrite Hhd.
  apply (run_loop_rule traverse_body
           (λ v t w', ∃ i c, v = Z.of_nat (length cs) - Z.of_nat i ∧
                             cs !! i = Some c ∧ t = Some (c_node c) ∧
                             mem w' = mem w ∧
                             console w'
                             = console w +:+ arrows (take i (texts cs)))
           (λ o, o = Ok (tt, World (mem w)
                                (console w +:+ arrows (texts cs)))))
    with (v := Z.of_nat (length cs)).
  - intros v t w' (i & c & -> & Hc & _). apply lookup_lt_Some in Hc. lia.
  - intros v t w' (i & c & -> & Hc & -> & Hm & Hout). unfold traverse_body.
    destruct (dlseg_at _ _ _ _ _ _ Hseg Hc) as [Hn Hb].
    rewrite <- Hm in Hn, Hb.
    rewrite (bind_eq _ _ _ _ _ (load_node_eq _ _ _ Hn)). cbn [data next].
    rewrite (bind_eq _ _ _ _ _ (load_chars_eq _ _ _ _ Hb)).
    rewrite (bind_eq _ _ _ _ _ (printf_eq _ _)).
    assert (console w' +:+ c_text c +:+ "->"
            = console w +:+ arrows (take (S i) (texts cs))) as Hout'.
    { rewrite (take_S_r _ _ _ (texts_lookup _ _ _ Hc)), arrows_snoc.
      by rewrite Hout, string_app_assoc. }
    rewrite Hout', Hm.
    case_bool_decide as Hnx; simpl.
    + destruct (decide (S i < length cs)%nat) as [Hlt|Hge].
      2:{ rewrite first_ptr_drop_ge in Hnx by lia. done. }
      destruct (lookup_lt_is_Some_2 cs (S i) Hlt) as [c' Hc'].
      exists (Z.of_nat (length cs) - Z.of_nat (S i)). split; [|lia].
      exists (S i), c'. split_and!; try done.
      by apply first_ptr_drop.
    + destruct (decide (S i < length cs)%nat) as [Hlt|Hge].
      { destruct (lookup_lt_is_Some_2 cs (S i) Hlt) as [c' Hc'].
        rewrite (first_ptr_drop _ _ _ Hc') in Hnx. congruence. }
      rewrite take_ge; [done|]. unfold texts. rewrite length_fmap. lia.
  - destruct cs as [|c cs']; [done|]. exists 0%nat, c. simpl.
    split_and!; try done; try lia. by rewrite string_app_empty_r.
  - pose proof (dlseg_length_size _ _ _ _ Hseg Hnd) as Hsz.
    assert (Z.of_nat (size (mem w)) < 2 ^ Z.of_nat (size (mem w))).
    { apply Z.pow_gt_lin_r; lia. }
    lia.
Qed.

Lemma traverse_dll_empty w d :
  head d = NULL → traverse_dll d w = UB NullDeref.
Proof.
  intros Hhd. unfold traverse_dll. apply bind_UB, run_loop_UB.
  by rewrite Hhd.
Qed.

(** ** Rewiring a chain *)

Lemma dlseg_buf_not_node m pv cs nx c a n :
  dlseg m pv cs nx → c ∈ cs → m !! a = Some (BNode n) → c_buf c ≠ a.
Proof.
  revert pv. induction cs as [|c' cs IH]; intros pv H Hc Ha; simpl in *.
  - by apply elem_of_nil in Hc.
  - destruct H as (_ & Hb & Hrest).
    apply elem_of_cons in Hc as [->|Hc]; [|by eapply IH].
    intros Heq. rewrite Heq, Ha in Hb. done.
Qed.

(** [c->prev = pv'] on the first node of a chain. *)
Lemma dlseg_set_prev m pv pv' c cs nx :
  dlseg m pv (c :: cs) nx → c_node c ∉ nodes cs →
  dlseg (<[c_node c := node_of c pv' (first_ptr cs nx)]> m) pv' (c :: cs) nx.
Proof.
  intros H Hnd. pose proof H as (Hn & Hb & Hrest). simpl. split_and!.
  - by rewrite lookup_insert_eq.
  - rewrite lookup_insert_ne; [done|]. intros Heq.
    rewrite Heq, Hb in Hn. done.
  - apply dlseg_insert_frame; [done..|]. by eapply not_chars_node.
Qed.

(** [c->next = nx'] on the last node of a chain. *)
Lemma dlseg_set_next m pv l c nx nx' :
  dlseg m pv (l ++ [c]) nx → c_node c ∉ nodes l →
  dlseg (<[c_node c := node_of c (last_ptr l pv) nx']> m) pv (l ++ [c]) nx'.
Proof.
  intros H Hnd. apply dlseg_app in H as (Hl & Hn & Hb & _).
  apply dlseg_app. simpl in *. split_and!; [| |  |done].
  - apply dlseg_insert_frame; [done..|]. by eapply not_chars_node.
  - by rewrite lookup_insert_eq.
  - rewrite lookup_insert_ne; [done|]. intros Heq.
    rewrite Heq, Hb in Hn. done.
Qed.

(** The cell [create_node] adds lies outside every chain of the heap it
    was added to. *)
Lemma with_cell_lookup w txt pv nx a b :
  mem w !! a = Some b →
  mem (with_cell w (new_cell w txt) pv nx) !! a = Some b.
Proof.
  intros Ha. unfold with_cell, new_cell. rewrite mem_set_mem. simpl.
  rewrite lookup_insert_ne.
  2:{ intros Heq. rewrite <- Heq, buf_loc_fresh in Ha. done. }
  rewrite lookup_insert_ne; [done|].
  intros Heq. rewrite <- Heq, node_loc_fresh in Ha. done.
Qed.

Lemma with_cell_node w txt pv nx :
  mem (with_cell w (new_cell w txt) pv nx) !! node_loc w
  = Some (node_of (new_cell w txt) pv nx).
Proof.
  unfold with_cell, new_cell. rewrite mem_set_mem. simpl.
  rewrite lookup_insert_ne by apply buf_loc_node_loc.
  by rewrite lookup_insert_eq.
Qed.

Lemma with_cell_buf w txt pv nx :
  mem (with_cell w (new_cell w txt) pv nx) !! buf_loc w
  = Some (BChars MAX_DATA_LEN txt).
Proof.
  unfold with_cell, new_cell. rewrite mem_set_mem. simpl.
  by rewrite lookup_insert_eq.
Qed.

Lemma dlseg_with_cell w pv cs nx txt pv' nx' :
  dlseg (mem w) pv cs nx →
  dlseg (mem (with_cell w (new_cell w txt) pv' nx')) pv cs nx.
Proof.
  intros H. unfold with_cell, new_cell. rewrite mem_set_mem. simpl.
  apply dlseg_insert_frame.
  - apply dlseg_insert_frame; [done| |].
    + eapply dlseg_fresh; [done|]. apply node_loc_fresh.
    + apply not_chars_None, node_loc_fresh.
  - eapply dlseg_fresh; [done|]. apply buf_loc_fresh.
  - apply not_chars_insert; [|done]. apply not_chars_None, buf_loc_fresh.
Qed.

Lemma node_loc_not_in w pv cs nx :
  dlseg (mem w) pv cs nx → node_loc w ∉ nodes cs.
Proof. intros H. eapply dlseg_fresh; [done|]. apply node_loc_fresh. Qed.

Lemma console_with_cell w c pv nx : console (with_cell w c pv nx) = console w.
Proof. done. Qed.

Lemma nodes_app l1 l2 : nodes (l1 ++ l2) = nodes l1 ++ nodes l2.
Proof. apply fmap_app. Qed.

Lemma length_nodes cs : length (nodes cs) = length cs.
Proof. apply length_fmap. Qed.

(** ** append *)

(** The part the second and third branch of [append] share: link a new
    node behind the last node [c] of a chain. *)
Lemma link_after_last w l c txt :
  dlseg (mem w) NULL (l ++ [c]) NULL → NoDup (nodes (l ++ [c])) →
  Z.of_nat (String.length txt) < MAX_DATA_LEN →
  ∃ w', (let* new := create_node txt (Some (c_node c)) NULL in
         set_next (Some (c_node c)) new;;; ret new) w
        = Ok (Some (node_loc w), w') ∧
        dlseg (mem w') NULL ((l ++ [c]) ++ [new_cell w txt]) NULL ∧
        console w' = console w.
Proof.
  intros Hseg Hnd Htxt.
  rewrite (bind_eq _ _ _ _ _ (create_node_eq _ _ _ _ Htxt)).
  destruct (dlseg_mid _ _ _ _ _ _ Hseg) as [Hn Hb]. simpl in Hn.
  pose proof (with_cell_lookup w txt (Some (c_node c)) NULL _ _ Hn) as Hn'.
  rewrite (bind_eq _ _ _ _ _ (set_next_eq _ _ _ _ Hn')).
  eexists. split; [done|]. rewrite mem_set_mem. split; [|done].
  rewrite nodes_app in Hnd. apply NoDup_app in Hnd as (_ & Hdisj & _).
  apply dlseg_app. split.
  - cbn [data prev next first_ptr]. apply (dlseg_set_next _ _ l c NULL).
    + by apply dlseg_with_cell.
    + intros Hin. apply (Hdisj _ Hin). simpl. apply list_elem_of_here.
  - rewrite last_ptr_snoc. simpl. split_and!; [| |done].
    + rewrite lookup_insert_ne.
      2:{ intros Heq. rewrite Heq, node_loc_fresh in Hn. done. }
      apply with_cell_node.
    + rewrite lookup_insert_ne.
      2:{ intros Heq. rewrite Heq, buf_loc_fresh in Hn. done. }
      apply with_cell_buf.
Qed.

Lemma list_snoc_cases {A} (l : list A) : l = [] ∨ ∃ l' x, l = l' ++ [x].
Proof.
  induction l as [|x l' _] using rev_ind; [by left|right; by eauto].
Qed.

Lemma append_eq w d cs txt :
  dll_repr w d cs → len d < INT_MAX →
  Z.of_nat (String.length txt) < MAX_DATA_LEN →
  ∃ d' w', append d txt w = Ok (d', w') ∧
           dll_repr w' d' (cs ++ [new_cell w txt]) ∧
           console w' = console w.
Proof.
  intros (Hseg & Hnd & Hhd & Htl & Hlen & Hmax) Hlt Htxt. unfold append.
  assert (length (cs ++ [new_cell w txt]) = S (length cs)) as Hlen'.
  { rewrite length_app. simpl. lia. }
  destruct (list_snoc_cases cs) as [->|(l & c & ->)].
  - simpl in Hhd. rewrite Hhd. rewrite bool_decide_eq_true_2 by done.
    mstep ltac:(erewrite bind_eq; [|by apply create_node_eq]; done).
    mstep ltac:(apply int_add_eq; cbn [len]; int_range).
    do 2 eexists. split; [done|]. split; [|done].
    unfold dll_repr. cbn [head tail len]. split_and!; try done.
    + simpl. split_and!; [apply with_cell_node|apply with_cell_buf|done].
    + simpl. apply NoDup_singleton.
    + simpl in *. lia.
    + lia.
  - rewrite last_ptr_snoc in Htl.
    destruct (link_after_last w l c txt Hseg Hnd Htxt)
      as (w' & Hrun & Hseg' & Hcon).
    assert (head d ≠ NULL) as Hnn.
    { rewrite Hhd, first_ptr_app. by destruct l. }
    rewrite bool_decide_eq_false_2 by done.
    assert (∀ hd, (let* new := create_node txt (Some (c_node c)) NULL in
                   set_next (Some (c_node c)) new;;;
                   ret (mkDLL hd new (len d))) w
                  = Ok (mkDLL hd (Some (node_loc w)) (len d), w')) as Hbr.
    { intros hd. unfold bind in Hrun |- *.
      destruct (create_node txt (Some (c_node c)) NULL w) as [[new w1]| |];
        [|done..].
      destruct (set_next (Some (c_node c)) new w1) as [[[] w2]| |]; [|done..].
      unfold ret in *. by simplify_eq. }
    assert (dll_repr w' (mkDLL (head d) (Some (node_loc w)) (len d + 1))
              ((l ++ [c]) ++ [new_cell w txt])) as Hrepr.
    { unfold dll_repr. cbn [head tail len]. split_and!; try done.
      - rewrite nodes_app. apply NoDup_app. split_and!; [done| |].
        + intros a Ha Hin. simpl in Hin. apply list_elem_of_singleton in Hin.
          subst a. exact (node_loc_not_in _ _ _ _ Hseg Ha).
        + simpl. apply NoDup_singleton.
      - rewrite Hhd, !first_ptr_app. by destruct l.
      - by rewrite last_ptr_snoc.
      - lia.
      - lia. }
    case_bool_decide as Heq.
    + rewrite Heq, Htl. rewrite (bind_eq _ _ _ _ _ (Hbr _)).
      mstep ltac:(apply int_add_eq; cbn [len]; int_range).
      do 2 eexists. split; [done|]. cbn [head tail len].
      rewrite <- Htl, <- Heq. done.
    + rewrite Htl. rewrite (bind_eq _ _ _ _ _ (Hbr _)).
      mstep ltac:(apply int_add_eq; cbn [len]; int_range).
      do 2 eexists. split; [done|]. done.
Qed.

(** ** Relinking the ends of a chain *)

Lemma dlseg_agree m m' pv cs nx :
  dlseg m pv cs nx →
  (∀ c, c ∈ cs → m' !! c_node c = m !! c_node c ∧
                 m' !! c_buf c = m !! c_buf c) →
  dlseg m' pv cs nx.
Proof.
  revert pv. induction cs as [|c cs IH]; intros pv H Hag; simpl in *.
  - done.
  - destruct H as (Hn & Hb & Hrest).
    destruct (Hag c) as [-> ->]; [apply list_elem_of_here|].
    split_and!; [done..|]. apply IH; [done|].
    intros c' Hc'. apply Hag. by apply list_elem_of_further.
Qed.

Lemma elem_of_nodes c cs : c ∈ cs → c_node c ∈ nodes cs.
Proof. intros H. unfold nodes. by apply list_elem_of_fmap_2. Qed.

(** A chain survives every change of the heap that is confined to the
    nodes of another, live chain. *)
Lemma dlseg_stable m m' pv cs nx pv0 l nx0 :
  dlseg m pv cs nx → dlseg m pv0 l nx0 →
  (∀ x, x ∉ nodes l → m' !! x = m !! x) →
  (∀ x, x ∈ nodes cs → x ∉ nodes l) →
  dlseg m' pv cs nx.
Proof.
  intros Hcs Hl Hframe Hdisj. apply (dlseg_agree m); [done|].
  intros c Hc. split.
  - apply Hframe, Hdisj. by apply elem_of_nodes.
  - apply Hframe. intros Hin.
    destruct (dlseg_node_live _ _ _ _ _ Hl Hin) as [n Hn].
    by apply (dlseg_buf_not_node _ _ _ _ _ _ _ Hcs Hc Hn).
Qed.

Lemma relink_last w pv l nx nx' :
  dlseg (mem w) pv l nx → NoDup (nodes l) → l ≠ [] →
  ∃ w', set_next (last_ptr l pv) nx' w = Ok (tt, w') ∧
        dlseg (mem w') pv l nx' ∧
        console w' = console w ∧
        ∀ x, x ∉ nodes l → mem w' !! x = mem w !! x.
Proof.
  intros Hseg Hnd Hne.
  destruct (list_snoc_cases l) as [->|(l0 & p & ->)]; [done|].
  rewrite last_ptr_snoc.
  destruct (dlseg_mid _ _ _ _ _ _ Hseg) as [Hn _].
  rewrite nodes_app in Hnd. apply NoDup_app in Hnd as (_ & Hdisj & _).
  eexists. split; [by apply (set_next_eq _ _ _ _ Hn)|].
  rewrite mem_set_mem. cbn [data prev]. split_and!; [|done|].
  - apply (dlseg_set_next _ _ _ _ nx); [done|]. intros Hin.
    apply (Hdisj _ Hin). apply list_elem_of_here.
  - intros x Hx. rewrite lookup_insert_ne; [done|]. intros <-.
    apply Hx. rewrite nodes_app. apply elem_of_app. right.
    apply list_elem_of_here.
Qed.

Lemma relink_first w pv pv' l nx :
  dlseg (mem w) pv l nx → NoDup (nodes l) → l ≠ [] →
  ∃ w', set_prev (first_ptr l nx) pv' w = Ok (tt, w') ∧
        dlseg (mem w') pv' l nx ∧
        console w' = console w ∧
        ∀ x, x ∉ nodes l → mem w' !! x = mem w !! x.
Proof.
  intros Hseg Hnd Hne. destruct l as [|c l]; [done|]. cbn [first_ptr].
  pose proof Hseg as (Hn & _). apply NoDup_cons in Hnd as [Hc _].
  eexists. split; [by apply (set_prev_eq _ _ _ _ Hn)|].
  rewrite mem_set_mem. cbn [data next]. split_and!; [|done|].
  - by apply (dlseg_set_prev _ pv).
  - intros x Hx. rewrite lookup_insert_ne; [done|]. intros <-.
    apply Hx. apply list_elem_of_here.
Qed.

Lemma NoDup_nodes_app l1 l2 :
  NoDup (nodes (l1 ++ l2)) →
  NoDup (nodes l1) ∧ NoDup (nodes l2) ∧
  (∀ x, x ∈ nodes l1 → x ∉ nodes l2) ∧
  (∀ x, x ∈ nodes l2 → x ∉ nodes l1).
Proof.
  rewrite nodes_app. intros (H1 & Hd & H2)%NoDup_app.
  split_and!; [done..|]. intros x H2x H1x. by apply (Hd x).
Qed.

Lemma length_app_cons {A} (l1 l2 : list A) x :
  length (l1 ++ x :: l2) = S (length l1 + length l2).
Proof. rewrite length_app. simpl. lia. Qed.

(** ** insert *)

(** [if (t->prev != NULL) t->prev->next = new;] where [t->prev] is the
    last node of the chain [l] in front of [t]. *)
Lemma relink_last_opt w l nx nx' :
  dlseg (mem w) NULL l nx → NoDup (nodes l) →
  ∃ w', (if bool_decide (last_ptr l NULL ≠ NULL)
         then set_next (last_ptr l NULL) nx' else ret tt) w = Ok (tt, w') ∧
        dlseg (mem w') NULL l nx' ∧
        console w' = console w ∧
        ∀ x, x ∉ nodes l → mem w' !! x = mem w !! x.
Proof.
  intros Hseg Hnd. destruct (decide (l = [])) as [->|Hne].
  - exists w. by split_and!.
  - rewrite bool_decide_eq_true_2.
    + by apply (relink_last _ _ _ nx).
    + destruct (list_snoc_cases l) as [->|(l0 & p & ->)]; [done|].
      by rewrite last_ptr_snoc.
Qed.

Lemma insert_split w d l1 c l2 txt :
  dll_repr w d (l1 ++ c :: l2) → len d < INT_MAX →
  Z.of_nat (String.length txt) < MAX_DATA_LEN →
  ∃ d' w', insert d (Z.of_nat (length l1)) txt w = Ok (d', w') ∧
           dll_repr w' d' (l1 ++ new_cell w txt :: c :: l2) ∧
           console w' = console w ∧
           tail d' = tail d.
Proof.
  intros (Hseg & Hnd & Hhd & Htl & Hlen & Hmax) Hlt Htxt.
  rewrite length_app_cons in Hlen. unfold insert.
  rewrite bool_decide_eq_false_2 by lia.
  rewrite bool_decide_eq_false_2 by lia.
  rewrite Hhd.
  mstep ltac:(apply seek_eq; [done|rewrite length_app_cons; lia|lia]).
  rewrite Nat2Z.id, drop_app_length. cbn [first_ptr].
  destruct (dlseg_mid _ _ _ _ _ _ Hseg) as [Hn Hb].
  rewrite (bind_eq _ _ _ _ _ (load_node_eq _ _ _ Hn)). cbn [prev].
  rewrite (bind_eq _ _ _ _ _ (create_node_eq _ _ _ _ Htxt)).
  set (pv := last_ptr l1 NULL) in *.
  set (w1 := with_cell w (new_cell w txt) pv (Some (c_node c))).
  pose proof (with_cell_lookup w txt pv (Some (c_node c)) _ _ Hn) as Hn1.
  fold w1 in Hn1.
  rewrite (bind_eq _ _ _ _ _ (load_node_eq _ _ _ Hn1)). cbn [prev].
  pose proof (dlseg_with_cell w _ _ _ txt pv (Some (c_node c)) Hseg) as Hseg1.
  fold w1 in Hseg1. apply dlseg_app in Hseg1 as [H1 H2].
  cbn [first_ptr] in H1. fold pv in H2.
  destruct (NoDup_nodes_app _ _ Hnd) as (Hnd1 & Hnd2 & Hd12 & Hd21).
  pose proof Hseg as [Hw1 Hw2]%dlseg_app.
  pose proof (node_loc_not_in _ _ _ _ Hw1) as Ha1.
  pose proof (node_loc_not_in _ _ _ _ Hw2) as Ha2.
  pose proof (dlseg_fresh _ _ _ _ _ Hw1 (buf_loc_fresh w)) as Hb1.
  pose proof (dlseg_fresh _ _ _ _ _ Hw2 (buf_loc_fresh w)) as Hb2.
  destruct (relink_last_opt w1 l1 _ (Some (node_loc w)) H1 Hnd1)
    as (w2 & Hrun2 & H1' & Hcon2 & Hfr2).
  fold pv in Hrun2. rewrite (bind_eq _ _ _ _ _ Hrun2).
  assert (dlseg (mem w2) pv (c :: l2) NULL) as H2'.
  { by apply (dlseg_stable (mem w1) _ _ _ _ NULL l1 (Some (c_node c))). }
  destruct (relink_first w2 pv (Some (node_loc w)) (c :: l2) NULL H2' Hnd2)
    as (w3 & Hrun3 & H2'' & Hcon3 & Hfr3); [done|].
  cbn [first_ptr] in Hrun3. rewrite (bind_eq _ _ _ _ _ Hrun3).
  assert (mem w3 !! node_loc w
          = Some (node_of (new_cell w txt) pv (Some (c_node c)))) as Hnew.
  { rewrite Hfr3, Hfr2; [apply with_cell_node|done..]. }
  assert (mem w3 !! buf_loc w = Some (BChars MAX_DATA_LEN txt)) as Hbuf.
  { rewrite Hfr3, Hfr2; [apply with_cell_buf|done..]. }
  assert (dlseg (mem w3) NULL (l1 ++ new_cell w txt :: c :: l2) NULL) as Hfin.
  { apply dlseg_app. split.
    - cbn [first_ptr c_node new_cell].
      by apply (dlseg_stable (mem w2) _ _ _ _ pv (c :: l2) NULL).
    - fold pv. split_and!; done. }
  assert (NoDup (nodes (l1 ++ new_cell w txt :: c :: l2))) as Hndf.
  { rewrite nodes_app. apply NoDup_app. split_and!; [done| |].
    - intros x Hx Hin. apply elem_of_cons in Hin as [->|Hin].
      + by apply Ha1.
      + by apply (Hd12 x).
    - by apply NoDup_cons. }
  set (dll1 := if bool_decide (Z.of_nat (length l1) = 0)
               then mkDLL (Some (node_loc w)) (tail d) (len d) else d).
  assert (len dll1 = len d ∧ tail dll1 = tail d ∧
          head dll1 = first_ptr (l1 ++ [new_cell w txt]) NULL)
    as (Hl1 & Ht1 & Hh1).
  { subst dll1. destruct l1 as [|c0 l1'].
    - by rewrite bool_decide_eq_true_2.
    - rewrite bool_decide_eq_false_2 by (cbn [length]; lia).
      split_and!; [done..|]. by rewrite Hhd. }
  rewrite (bool_decide_eq_false_2 (Z.of_nat (length l1) = len dll1)) by lia.
  mstep ltac:(apply int_add_eq; int_range).
  do 2 eexists. split; [done|]. cbn [tail].
  split_and!; [|by rewrite Hcon3, Hcon2|done].
  unfold dll_repr. cbn [head tail len]. split_and!; try done.
  - rewrite Hh1, !first_ptr_app. by destruct l1.
  - rewrite Ht1, Htl, !last_ptr_app. done.
  - rewrite Hl1, Hlen, length_app_cons. simpl. lia.
  - lia.
Qed.

(** ** delete *)

Lemma NoDup_nodes_remove l1 c l2 :
  NoDup (nodes (l1 ++ c :: l2)) →
  NoDup (nodes (l1 ++ l2)) ∧ NoDup (nodes l1) ∧ NoDup (nodes l2) ∧
  (c_node c ∉ nodes l1) ∧ (c_node c ∉ nodes l2) ∧
  (∀ x, x ∈ nodes l1 → x ∉ nodes l2) ∧
  (∀ x, x ∈ nodes l2 → x ∉ nodes l1).
Proof.
  intros (H1 & H2 & Hd12 & Hd21)%NoDup_nodes_app.
  cbn [nodes fmap list_fmap] in H2. apply NoDup_cons in H2 as [Hc2 H2].
  assert (c_node c ∉ nodes l1) as Hc1.
  { apply Hd21. apply list_elem_of_here. }
  assert (∀ x, x ∈ nodes l1 → x ∉ nodes l2) as Hd.
  { intros x Hx Hx2. apply (Hd12 x Hx). by apply list_elem_of_further. }
  split_and!; try done.
  - rewrite nodes_app. apply NoDup_app. by split_and!.
  - intros x Hx2 Hx1. by apply (Hd x).
Qed.

(** The end of [delete]: the node is out of the chain, the counter goes
    down and the node is freed. *)
Lemma unlink_finish w c n l1 l2 hd tl lenv :
  dlseg (mem w) NULL l1 (first_ptr l2 NULL) →
  dlseg (mem w) (last_ptr l1 NULL) l2 NULL →
  mem w !! c = Some (BNode n) →
  c ∉ nodes l1 → c ∉ nodes l2 → NoDup (nodes (l1 ++ l2)) →
  hd = first_ptr (l1 ++ l2) NULL → tl = last_ptr (l1 ++ l2) NULL →
  lenv = Z.of_nat (S (length l1 + length l2)) → lenv ≤ INT_MAX →
  ∃ d' w', (let* l := int_sub lenv 1 in
            free (Some c);;; ret (mkDLL hd tl l)) w = Ok (d', w') ∧
           dll_repr w' d' (l1 ++ l2) ∧
           console w' = console w ∧
           mem w' !! c = None.
Proof.
  intros H1 H2 Hc Hc1 Hc2 Hnd -> -> -> Hmax.
  mstep ltac:(apply int_sub_eq; int_range).
  rewrite (bind_eq _ _ _ _ _ (free_eq _ _ _ Hc)).
  do 2 eexists. split; [done|]. rewrite mem_set_mem.
  split_and!; [|done|apply lookup_delete_eq].
  unfold dll_repr. cbn [head tail len]. rewrite mem_set_mem.
  split_and!; try done.
  - apply dlseg_app. split.
    + apply dlseg_delete_frame; [done..|]. by eapply not_chars_node.
    + apply dlseg_delete_frame; [done..|]. by eapply not_chars_node.
  - rewrite length_app. lia.
  - lia.
Qed.

Lemma delete_split w d l1 c l2 :
  dll_repr w d (l1 ++ c :: l2) →
  ∃ d' w', delete d (Z.of_nat (length l1)) w = Ok (d', w') ∧
           dll_repr w' d' (l1 ++ l2) ∧
           console w' = console w ∧
           mem w' !! c_node c = None.
Proof.
  intros (Hseg & Hnd & Hhd & Htl & Hlen & Hmax).
  rewrite length_app_cons in Hlen. unfold delete.
  rewrite bool_decide_eq_false_2 by lia.
  rewrite Hhd.
  mstep ltac:(apply seek_eq; [done|rewrite length_app_cons; lia|lia]).
  rewrite Nat2Z.id, drop_app_length. cbn [first_ptr].
  pose proof Hseg as [Hw1 (Hn & Hb & Hw2)]%dlseg_app.
  cbn [first_ptr] in Hw1.
  destruct (NoDup_nodes_remove _ _ _ Hnd)
    as (Hnd' & Hnd1 & Hnd2 & Hc1 & Hc2 & Hd12 & Hd21).
  set (pv := last_ptr l1 NULL) in *. set (nx := first_ptr l2 NULL) in *.
  assert (Some (c_node c) ≠ NULL) as Hcn by done.
  destruct (decide (l1 = [])) as [He1|Hne1];
    destruct (decide (l2 = [])) as [He2|Hne2].
  - (* the only node *)
    subst l1 l2. simpl in Hlen.
    rewrite bool_decide_eq_true_2 by lia.
    by apply (unlink_finish w (c_node c) _ [] [] _ _ _ Hw1 Hw2 Hn).
  - (* the head of a longer list *)
    subst l1. cbn [length] in *.
    assert (len d ≠ 1) as Hl1 by (destruct l2; [done|cbn [length] in *; lia]).
    rewrite bool_decide_eq_false_2 by done.
    rewrite bool_decide_eq_true_2 by done.
    destruct (relink_first w _ NULL l2 NULL Hw2 Hnd2 Hne2)
      as (w2 & Hrun2 & H2' & Hcon2 & Hfr2).
    pose proof Hn as Hn2. rewrite <- (Hfr2 _ Hc2) in Hn2.
    erewrite bind_eq; cycle 1.
    { rewrite (bind_eq _ _ _ _ _ (load_node_eq _ _ _ Hn)). cbn [next].
      fold nx. rewrite (bind_eq _ _ _ _ _ Hrun2).
      rewrite (bind_eq _ _ _ _ _ (load_node_eq _ _ _ Hn2)). cbn [next].
      reflexivity. }
    cbn [head tail len]. rewrite <- Hcon2.
    apply (unlink_finish w2 (c_node c) _ [] l2 _ _ _ I H2' Hn2); try done.
    rewrite Htl. simpl. by destruct l2.
  - (* the tail of a longer list *)
    subst l2. cbn [length] in *.
    assert (0 < Z.of_nat (length l1)) as Hpos.
    { destruct l1; [done|cbn [length]; lia]. }
    rewrite bool_decide_eq_false_2 by lia.
    rewrite bool_decide_eq_false_2 by lia.
    destruct (relink_last w _ l1 _ NULL Hw1 Hnd1 Hne1)
      as (w2 & Hrun2 & H1' & Hcon2 & Hfr2).
    pose proof Hn as Hn2. rewrite <- (Hfr2 _ Hc1) in Hn2.
    erewrite bind_eq; cycle 1.
    { mstep ltac:(apply int_sub_eq; int_range).
      rewrite bool_decide_eq_true_2 by lia.
      rewrite (bind_eq _ _ _ _ _ (load_node_eq _ _ _ Hn)). cbn [prev].
      fold pv. rewrite (bind_eq _ _ _ _ _ Hrun2).
      rewrite (bind_eq _ _ _ _ _ (load_node_eq _ _ _ Hn2)). cbn [prev].
      reflexivity. }
    cbn [head tail len]. rewrite <- Hcon2.
    apply (unlink_finish w2 (c_node c) _ l1 [] _ _ _ H1' I Hn2); try done.
    + rewrite ?Hhd, !first_ptr_app. by destruct l1.
    + by rewrite ?Htl, !last_ptr_app.
  - (* a node with both neighbours *)
    assert (0 < Z.of_nat (length l1)) as Hpos1.
    { destruct l1; [done|cbn [length]; lia]. }
    assert (0 < Z.of_nat (length l2)) as Hpos2.
    { destruct l2; [done|cbn [length]; lia]. }
    rewrite bool_decide_eq_false_2 by lia.
    rewrite bool_decide_eq_false_2 by lia.
    destruct (relink_last w _ l1 _ nx Hw1 Hnd1 Hne1)
      as (w2 & Hrun2 & H1' & Hcon2 & Hfr2).
    pose proof Hn as Hn2. rewrite <- (Hfr2 _ Hc1) in Hn2.
    assert (dlseg (mem w2) (Some (c_node c)) l2 NULL) as H2'.
    { by apply (dlseg_stable (mem w) _ _ _ _ NULL l1 (Some (c_node c))). }
    destruct (relink_first w2 _ pv l2 NULL H2' Hnd2 Hne2)
      as (w3 & Hrun3 & H2'' & Hcon3 & Hfr3).
    pose proof Hn2 as Hn3. rewrite <- (Hfr3 _ Hc2) in Hn3.
    assert (dlseg (mem w3) NULL l1 nx) as H1''.
    { by apply (dlseg_stable (mem w2) _ _ _ _ (Some (c_node c)) l2 NULL). }
    erewrite bind_eq; cycle 1.
    { mstep ltac:(apply int_sub_eq; int_range).
      rewrite bool_decide_eq_false_2 by lia.
      rewrite (bind_eq _ _ _ _ _ (load_node_eq _ _ _ Hn)). cbn [prev next].
      fold pv nx. rewrite (bind_eq _ _ _ _ _ Hrun2).
      rewrite (bind_eq _ _ _ _ _ (load_node_eq _ _ _ Hn2)). cbn [prev next].
      fold pv nx. rewrite (bind_eq _ _ _ _ _ Hrun3).
      reflexivity. }
    rewrite <- Hcon2, <- Hcon3.
    apply (unlink_finish w3 (c_node c) _ l1 l2 _ _ _ H1'' H2'' Hn3); try done.
    + rewrite ?Hhd, !first_ptr_app. by destruct l1.
    + rewrite ?Htl, !last_ptr_app. cbn [last_ptr]. by destruct l2.
Qed.

(** ** From the shape of the chain to the invariants on pointers *)

Lemma node_at_eq w a n : mem w !! a = Some (BNode n) → node_at w a = Some n.
Proof. unfold node_at. by intros ->. Qed.

Lemma node_at_inv w a n : node_at w a = Some n → mem w !! a = Some (BNode n).
Proof.
  unfold node_at. destruct (mem w !! a) as [[n'|]|]; [|done..].
  by intros [= ->].
Qed.

Lemma reachable_nodes w pv cs a :
  dlseg (mem w) pv cs NULL → reachable w (first_ptr cs NULL) a →
  a ∈ nodes cs.
Proof.
  revert pv. induction cs as [|c cs IH]; intros pv Hseg Hr.
  - inversion Hr.
  - destruct Hseg as (Hn & _ & Hrest). cbn [first_ptr] in Hr.
    inversion Hr as [a' n Hna|a' n b Hna Hnext]; subst.
    + apply list_elem_of_here.
    + apply list_elem_of_further. apply (IH (Some (c_node c))); [done|].
      apply node_at_inv in Hna. rewrite Hn in Hna.
      injection Hna as <-. done.
Qed.

Lemma elem_of_nodes_split cs a :
  a ∈ nodes cs → ∃ l1 c l2, cs = l1 ++ c :: l2 ∧ c_node c = a.
Proof.
  intros (c & -> & Hc)%list_elem_of_fmap.
  apply list_elem_of_split in Hc as (l1 & l2 & ->). by eauto.
Qed.

Lemma dll_repr_structural_inv w d cs : dll_repr w d cs → structural_inv w d.
Proof.
  intros (Hseg & Hnd & Hhd & Htl & Hlen & Hmax). split.
  - rewrite Hhd, Htl, Hlen. destruct cs as [|c cs]; [done|].
    cbn [length first_ptr]. split; [lia|]. by intros [? _].
  - intros H2. split_and!.
    + destruct cs as [|c cs]; [simpl in *; lia|].
      destruct Hseg as (Hn & _). exists (c_node c). eexists.
      split_and!; [done|by apply node_at_eq|done].
    + destruct (list_snoc_cases cs) as [->|(l & c & ->)]; [simpl in *; lia|].
      destruct (dlseg_mid _ _ _ _ _ _ Hseg) as [Hn _].
      rewrite last_ptr_snoc in Htl. exists (c_node c). eexists.
      split_and!; [done|by apply node_at_eq|done].
    + intros a n Hr Hna. rewrite Hhd in Hr.
      apply (reachable_nodes _ _ _ _ Hseg) in Hr.
      apply elem_of_nodes_split in Hr as (l1 & c & l2 & -> & <-).
      destruct (dlseg_mid _ _ _ _ _ _ Hseg) as [Hn _].
      apply node_at_inv in Hna. rewrite Hn in Hna. injection Hna as <-.
      cbn [prev next]. split.
      * intros Hnh. rewrite Hhd, first_ptr_app in Hnh.
        destruct (list_snoc_cases l1) as [->|(l0 & p & ->)]; [done|].
        rewrite <- app_assoc in Hseg.
        destruct (dlseg_mid _ _ _ _ _ _ Hseg) as [Hp _].
        rewrite last_ptr_snoc. exists (c_node p). eexists.
        split_and!; [done|by apply node_at_eq|done].
      * intros Hnt. rewrite Htl, last_ptr_app in Hnt. cbn [last_ptr] in Hnt.
        destruct l2 as [|q l2]; [done|].
        rewrite (cons_middle c l1 (q :: l2)), app_assoc in Hseg.
        destruct (dlseg_mid _ _ _ _ _ _ Hseg) as [Hq _].
        rewrite last_ptr_snoc in Hq. exists (c_node q). eexists.
        split_and!; [done|by apply node_at_eq|done].
Qed.

(** ** The operations by index *)

Lemma insert_at w d cs indx txt :
  dll_repr w d cs → 0 ≤ indx < len d → len d < INT_MAX → fits txt →
  ∃ d' w', insert d indx txt w = Ok (d', w') ∧
           dll_repr w' d'
             (take (Z.to_nat indx) cs ++ new_cell w txt
                :: drop (Z.to_nat indx) cs) ∧
           console w' = console w ∧
           tail d' = tail d.
Proof.
  intros Hrepr Hindx Hlt Htxt.
  pose proof Hrepr as (_ & _ & _ & _ & Hlen & _).
  destruct (lookup_lt_is_Some_2 cs (Z.to_nat indx)) as [c Hc]; [lia|].
  rewrite (drop_S _ _ _ Hc).
  rewrite <- (take_drop_middle _ _ _ Hc) in Hrepr.
  destruct (insert_split _ _ _ _ _ txt Hrepr Hlt Htxt) as (d' & w' & Hrun & H).
  rewrite length_take_le, Z2Nat.id in Hrun by lia. by eauto.
Qed.

Lemma delete_at w d cs indx :
  dll_repr w d cs → 0 ≤ indx < len d →
  ∃ c d' w', cs !! Z.to_nat indx = Some c ∧
             delete d indx w = Ok (d', w') ∧
             dll_repr w' d' (base.delete (Z.to_nat indx) cs) ∧
             console w' = console w ∧
             mem w' !! c_node c = None.
Proof.
  intros Hrepr Hindx.
  pose proof Hrepr as (_ & _ & _ & _ & Hlen & _).
  destruct (lookup_lt_is_Some_2 cs (Z.to_nat indx)) as [c Hc]; [lia|].
  rewrite delete_take_drop.
  rewrite <- (take_drop_middle _ _ _ Hc) in Hrepr.
  destruct (delete_split _ _ _ _ _ Hrepr) as (d' & w' & Hrun & H).
  rewrite length_take_le, Z2Nat.id in Hrun by lia. exists c. by eauto.
Qed.

Lemma insert_at_end d txt w : insert d (len d) txt w = append d txt w.
Proof.
  unfold insert.
  rewrite bool_decide_eq_false_2 by lia. by rewrite bool_decide_eq_true_2.
Qed.

Lemma insert_rejects w d indx txt :
  indx > len d →
  insert d indx txt w
  = Ok (d, World (mem w) (console w +:+ insert_message indx)).
Proof. intros H. unfold insert. by rewrite bool_decide_eq_true_2. Qed.

Lemma delete_rejects w d indx :
  indx >= len d →
  delete d indx w
  = Ok (d, World (mem w) (console w +:+ delete_message indx)).
Proof. intros H. unfold delete. by rewrite bool_decide_eq_true_2. Qed.

Lemma dll_repr_len_nonneg w d cs : dll_repr w d cs → 0 ≤ len d.
Proof. intros (_ & _ & _ & _ & -> & _). lia. Qed.

Lemma insert_negative w d cs indx txt :
  dll_repr w d cs → indx < 0 → insert d indx txt w = UB NullDeref.
Proof.
  intros Hrepr Hneg. pose proof (dll_repr_len_nonneg _ _ _ Hrepr) as Hlen.
  destruct Hrepr as (Hseg & _ & Hhd & _ & Hl & Hmax). unfold insert.
  rewrite bool_decide_eq_false_2 by lia.
  rewrite bool_decide_eq_false_2 by lia.
  apply bind_UB. rewrite Hhd. apply seek_negative; [done..|lia].
Qed.

Lemma delete_negative w d cs indx :
  dll_repr w d cs → indx < 0 → delete d indx w = UB NullDeref.
Proof.
  intros Hrepr Hneg. pose proof (dll_repr_len_nonneg _ _ _ Hrepr) as Hlen.
  destruct Hrepr as (Hseg & _ & Hhd & _ & Hl & Hmax). unfold delete.
  rewrite bool_decide_eq_false_2 by lia.
  apply bind_UB. rewrite Hhd. apply seek_negative; [done..|lia].
Qed.

(** The concrete list is the one [main] has built when it calls
    [traverse_dll], and it is well formed. *)
Lemma main_builds :
  (let* d := create_doubly_linked_list "Head" in append d "A") world0
  = Ok (main_dll, main_world).
Proof. vm_compute. reflexivity. Qed.

Lemma main_repr : dll_repr main_world main_dll main_cells.
Proof. by apply (bool_decide_unpack _); vm_compute. Qed.

Lemma main_prints :
  (let* d := create_doubly_linked_list "Head" in
   let* d := append d "A" in
   traverse_dll d;;;
   find d "Ba") world0
  = Ok (-1, World (mem main_world) ("Head->A->NULL" +:+ newline)).
Proof. vm_compute. reflexivity. Qed.

Lemma insert_tail_update_dead d indx txt w :
  insert d indx txt w = insert_without_tail_update d indx txt w.
Proof.
  unfold insert, insert_without_tail_update.
  destruct (bool_decide (indx > len d)); [done|].
  destruct (bool_decide (indx = len d)) eqn:Hlen; [done|].
  apply bool_decide_eq_false in Hlen.
  unfold bind.
  destruct (seek (head d) indx w) as [[t w1]| |]; [|done..].
  destruct (load_node t w1) as [[nt w2]| |]; [|done..].
  destruct (create_node txt (prev nt) t w2) as [[new w3]| |]; [|done..].
  destruct (load_node t w3) as [[nt' w4]| |]; [|done..].
  destruct ((if bool_decide (prev nt' ≠ NULL)
             then set_next (prev nt') new else ret ()) w4)
    as [[[] w5]| |]; [|done..].
  destruct (set_prev t new w5) as [[[] w6]| |]; [|done..].
  destruct (bool_decide (indx = 0)); cbn [len];
    by rewrite bool_decide_eq_false_2.
Qed.

Lemma append_all_eq txts : ∀ w d cs,
  dll_repr w d cs → Forall fits txts →
  len d + Z.of_nat (length txts) ≤ INT_MAX →
  ∃ d' w' cs', append_all d txts w = Ok (d', w') ∧
               dll_repr w' d' (cs ++ cs') ∧
               length cs' = length txts.
Proof.
  induction txts as [|txt txts IH]; intros w d cs Hrepr Hfit Hmax.
  - exists d, w, []. rewrite app_nil_r. by split_and!.
  - apply Forall_cons in Hfit as [Htxt Hfit]. cbn [length] in Hmax.
    destruct (append_eq w d cs txt Hrepr ltac:(lia) Htxt)
      as (d1 & w1 & Hrun1 & Hrepr1 & _).
    pose proof Hrepr as (_ & _ & _ & _ & Hl & _).
    pose proof Hrepr1 as (_ & _ & _ & _ & Hl1 & _).
    rewrite length_app in Hl1. cbn [length] in Hl1.
    destruct (IH w1 d1 _ Hrepr1 Hfit ltac:(lia))
      as (d' & w' & cs' & Hrun & Hrepr' & Hlen').
    exists d', w', (new_cell w txt :: cs'). split_and!.
    + cbn [append_all]. by rewrite (bind_eq _ _ _ _ _ Hrun1).
    + by rewrite <- app_assoc in Hrepr'.
    + cbn [length]. by rewrite Hlen'.
Qed.

Lemma delete_down_eq n : ∀ w d cs,
  dll_repr w d cs → length cs = n →
  ∃ d' w', delete_down d n w = Ok (d', w') ∧ dll_repr w' d' [].
Proof.
  induction n as [|n IH]; intros w d cs Hrepr Hn.
  - destruct cs; [|done]. by exists d, w.
  - destruct (list_snoc_cases cs) as [->|(l & c & ->)]; [done|].
    rewrite length_app in Hn. cbn [length] in Hn.
    assert (length l = n) as Hl by lia.
    destruct (delete_split _ _ _ _ _ Hrepr) as (d1 & w1 & Hrun1 & Hrepr1 & _).
    rewrite app_nil_r in Hrepr1. rewrite Hl in Hrun1.
    destruct (IH w1 d1 l Hrepr1 Hl) as (d' & w' & Hrun & Hrepr').
    exists d', w'. split; [|done].
    cbn [delete_down]. by rewrite (bind_eq _ _ _ _ _ Hrun1).
Qed.

Lemma dll_repr_nil_inv w d : dll_repr w d [] → d = empty_dll.
Proof.
  intros (_ & _ & Hhd & Htl & Hlen & _). destruct d as [h t l].
  simpl in *. by subst.
Qed.

Lemma dll_repr_empty w : dll_repr w empty_dll [].
Proof. unfold dll_repr. simpl. split_and!; try done. apply NoDup_nil_2. Qed.

Lemma create_doubly_linked_list_eq w txt :
  fits txt →
  create_doubly_linked_list txt w
  = Ok (mkDLL (Some (node_loc w)) (Some (node_loc w)) 1,
        with_cell w (new_cell w txt) NULL NULL).
Proof.
  intros Htxt. unfold create_doubly_linked_list.
  by rewrite (bind_eq _ _ _ _ _ (create_node_eq _ _ _ _ Htxt)).
Qed.

Lemma create_doubly_linked_list_overrun w txt :
  MAX_DATA_LEN ≤ Z.of_nat (String.length txt) →
  create_doubly_linked_list txt w = UB BufferOverrun.
Proof.
  intros Htxt. unfold create_doubly_linked_list.
  apply bind_UB. by apply create_node_overrun.
Qed.

(** * The claims *)

(** C1. Every public mutating operation — [append], [insert] with a
    valid index, [delete] with a valid index — called on a list that
    satisfies the data-model invariant returns normally and leaves a
    list that satisfies it again, and with it the structural invariants:
    [len == 0] exactly when head and tail are both absent, and from two
    nodes on the head has no predecessor, the tail no successor, and the
    links of every node agree in both directions. *)
Theorem mutators_preserve_invariants w d cs c :
  dll_repr w d cs → valid_call d c →
  ∃ d' w' cs', run_call d c w = Ok (d', w') ∧
               dll_repr w' d' cs' ∧
               structural_inv w' d'.
Proof.
  intros Hrepr Hvalid. destruct c as [txt|indx txt|indx]; cbn in *.
  - destruct Hvalid as [Htxt Hlt].
    destruct (append_eq w d cs txt Hrepr Hlt Htxt) as (d' & w' & ? & ? & _).
    exists d', w'. eexists. eauto using dll_repr_structural_inv.
  - destruct Hvalid as (Hindx & Htxt & Hlt).
    destruct (decide (indx = len d)) as [->|Hne].
    + rewrite insert_at_end.
      destruct (append_eq w d cs txt Hrepr Hlt Htxt) as (d' & w' & ? & ? & _).
      exists d', w'. eexists. eauto using dll_repr_structural_inv.
    + destruct (insert_at w d cs indx txt Hrepr ltac:(lia) Hlt Htxt)
        as (d' & w' & ? & ? & _).
      exists d', w'. eexists. eauto using dll_repr_structural_inv.
  - destruct (delete_at w d cs indx Hrepr Hvalid)
      as (c & d' & w' & _ & ? & ? & _).
    exists d', w'. eexists. eauto using dll_repr_structural_inv.
Qed.

Lemma mutators_preserve_invariants_witness :
  dll_repr main_world main_dll main_cells ∧
  valid_call main_dll (CallInsert 1 "B") ∧
  ∃ d' w' cs', run_call main_dll (CallInsert 1 "B") main_world
               = Ok (d', w') ∧
               dll_repr w' d' cs' ∧
               structural_inv w' d'.
Proof.
  assert (dll_repr main_world main_dll main_cells) as Hrepr.
  { apply (bool_decide_unpack _). vm_compute. exact I. }
  assert (valid_call main_dll (CallInsert 1 "B")) as Hvalid.
  { vm_compute. repeat split; discriminate. }
  split; [exact Hrepr|]. split; [exact Hvalid|].
  exact (mutators_preserve_invariants _ _ _ _ Hrepr Hvalid).
Defined.

(** C2. [insert] with an index greater than the length, and [delete]
    with an index not below the length (on the empty list: every index
    from 0 on), print their out-of-range message and return with the
    list as it was: the same header and the same heap, node for node. *)
Theorem out_of_range_is_rejected w d i j txt :
  i > len d → j >= len d →
  insert d i txt w
  = Ok (d, World (mem w) (console w +:+ insert_message i)) ∧
  delete d j w
  = Ok (d, World (mem w) (console w +:+ delete_message j)).
Proof. intros Hi Hj. split; [by apply insert_rejects|by apply delete_rejects]. Qed.

Lemma out_of_range_is_rejected_witness :
  3 > len main_dll ∧ 2 >= len main_dll ∧
  insert main_dll 3 "B" main_world
  = Ok (main_dll,
        World (mem main_world) (console main_world +:+ insert_message 3)) ∧
  delete main_dll 2 main_world
  = Ok (main_dll,
        World (mem main_world) (console main_world +:+ delete_message 2)).
Proof.
  assert (3 > len main_dll) as Hi by (vm_compute; reflexivity).
  assert (2 >= len main_dll) as Hj by (vm_compute; discriminate).
  split; [exact Hi|]. split; [exact Hj|].
  exact (out_of_range_is_rejected main_world main_dll 3 2 "B" Hi Hj).
Defined.

(** C3. [find] returns the zero-based position of the first node, head
    first, whose payload equals the target, and -1 when no node does —
    on the empty list too; it leaves the state as it was. *)
Theorem find_returns_first_match w d cs target :
  dll_repr w d cs →
  ∃ r, find d target w = Ok (r, w) ∧ find_result target (texts cs) r.
Proof. apply find_eq. Qed.

Lemma find_returns_first_match_witness :
  dll_repr main_world main_dll main_cells ∧
  ∃ r, find main_dll "A" main_world = Ok (r, main_world) ∧
       find_result "A" (texts main_cells) r.
Proof.
  assert (dll_repr main_world main_dll main_cells) as Hrepr.
  { apply (bool_decide_unpack _). vm_compute. exact I. }
  split; [exact Hrepr|].
  exact (find_returns_first_match _ _ _ "A" Hrepr).
Defined.

(** C4. [insert (dll, dll->len, text)] and [append (dll, text)] have the
    same result in every state: the same header and the same heap. *)
Theorem insert_at_length_is_append w d txt :
  insert d (len d) txt w = append d txt w.
Proof. apply insert_at_end. Qed.

(** C5. [delete] with an index from 0 to [len - 1] removes exactly the
    node at that position and frees it, lowers [len] by one, and leaves
    a list whose links agree in both directions. *)
Theorem delete_removes_node w d cs indx :
  dll_repr w d cs → 0 ≤ indx < len d →
  ∃ c d' w', cs !! Z.to_nat indx = Some c ∧
             delete d indx w = Ok (d', w') ∧
             dll_repr w' d' (base.delete (Z.to_nat indx) cs) ∧
             len d' = len d - 1 ∧
             mem w' !! c_node c = None ∧
             structural_inv w' d'.
Proof.
  intros Hrepr Hindx.
  destruct (delete_at w d cs indx Hrepr Hindx)
    as (c & d' & w' & Hc & Hrun & Hrepr' & _ & Hfree).
  exists c, d', w'. split_and!; try done.
  - destruct Hrepr as (_ & _ & _ & _ & Hl & _).
    destruct Hrepr' as (_ & _ & _ & _ & Hl' & _).
    rewrite Hl', Hl, length_delete by by eexists.
    apply lookup_lt_Some in Hc. lia.
  - by eapply dll_repr_structural_inv.
Qed.

Lemma delete_removes_node_witness :
  dll_repr main_world main_dll main_cells ∧ 0 ≤ 1 < len main_dll ∧
  ∃ c d' w', main_cells !! Z.to_nat 1 = Some c ∧
             delete main_dll 1 main_world = Ok (d', w') ∧
             dll_repr w' d' (base.delete (Z.to_nat 1) main_cells) ∧
             len d' = len main_dll - 1 ∧
             mem w' !! c_node c = None ∧
             structural_inv w' d'.
Proof.
  assert (dll_repr main_world main_dll main_cells) as Hrepr.
  { apply (bool_decide_unpack _). vm_compute. exact I. }
  assert (0 ≤ 1 < len main_dll) as Hindx.
  { vm_compute. split; [discriminate|reflexivity]. }
  split; [exact Hrepr|]. split; [exact Hindx|].
  exact (delete_removes_node _ _ _ 1 Hrepr Hindx).
Defined.

(** C6. [traverse_dll] on the empty list.  The list can become empty:
    deleting the only node of a fresh list leaves head and tail absent
    and [len] 0.  On that list [traverse_dll] does not print the end
    marker and return: its do-while loop reads [t->data] through the
    absent head before it tests [t]. *)
Theorem traverse_of_emptied_list_faults :
  (∃ w, (let* d := create_doubly_linked_list "Head" in delete d 0) world0
        = Ok (empty_dll, w)) ∧
  (∀ w, traverse_dll empty_dll w = UB NullDeref) ∧
  (let* d := create_doubly_linked_list "Head" in
   let* d := delete d 0 in
   traverse_dll d) world0 = UB NullDeref.
Proof.
  split_and!.
  - eexists. vm_compute. reflexivity.
  - intros w. by apply traverse_dll_empty.
  - vm_compute. reflexivity.
Qed.

(** C7. [create_doubly_linked_list] with a text of more than
    [MAX_DATA_LEN] characters (and already with one of exactly that
    many, since the terminating zero byte needs room too) reports no
    error: [create_node] copies the text into the 100-byte buffer with
    an unchecked [strcpy], which writes past its end. *)
Theorem create_overruns_long_text :
  String.length (text_of_length 101) = 101%nat ∧
  create_doubly_linked_list (text_of_length 101) world0 = UB BufferOverrun ∧
  String.length (text_of_length 100) = 100%nat ∧
  create_doubly_linked_list (text_of_length 100) world0 = UB BufferOverrun.
Proof.
  split_and!; [done| |done|];
    by apply create_doubly_linked_list_overrun.
Qed.

(** C8. [insert] with an index from 0 to [len - 1]: the new node takes
    that position, the stored tail is the one it was, and for index 0
    the head is the new node.  The statement after the splice that would
    set the tail when the index equals [len] never runs: leaving it out
    changes the result of no call. *)
Theorem insert_before_keeps_tail w d cs indx txt :
  dll_repr w d cs → 0 ≤ indx < len d → len d < INT_MAX → fits txt →
  insert d indx txt w = insert_without_tail_update d indx txt w ∧
  ∃ d' w', insert d indx txt w = Ok (d', w') ∧
           dll_repr w' d'
             (take (Z.to_nat indx) cs ++ new_cell w txt
                :: drop (Z.to_nat indx) cs) ∧
           tail d' = tail d ∧
           (indx = 0 → head d' = Some (node_loc w)) ∧
           (0 < indx → head d' = head d).
Proof.
  intros Hrepr Hindx Hlt Htxt. split; [apply insert_tail_update_dead|].
  destruct (insert_at w d cs indx txt Hrepr Hindx Hlt Htxt)
    as (d' & w' & Hrun & Hrepr' & _ & Htl).
  exists d', w'. split_and!; try done.
  - intros ->. by destruct Hrepr' as (_ & _ & -> & _).
  - intros Hpos. destruct Hrepr as (_ & _ & -> & _ & Hl & _).
    destruct Hrepr' as (_ & _ & -> & _).
    destruct cs as [|c cs]; [simpl in *; lia|].
    destruct (Z.to_nat indx) as [|k] eqn:Hk; [lia|done].
Qed.

Lemma insert_before_keeps_tail_witness :
  dll_repr main_world main_dll main_cells ∧ 0 ≤ 0 < len main_dll ∧
  len main_dll < INT_MAX ∧ fits "B" ∧
  insert main_dll 0 "B" main_world
  = insert_without_tail_update main_dll 0 "B" main_world ∧
  ∃ d' w', insert main_dll 0 "B" main_world = Ok (d', w') ∧
           dll_repr w' d'
             (take (Z.to_nat 0) main_cells ++ new_cell main_world "B"
                :: drop (Z.to_nat 0) main_cells) ∧
           tail d' = tail main_dll ∧
           (0 = 0 → head d' = Some (node_loc main_world)) ∧
           (0 < 0 → head d' = head main_dll).
Proof.
  assert (dll_repr main_world main_dll main_cells) as Hrepr.
  { apply (bool_decide_unpack _). vm_compute. exact I. }
  assert (0 ≤ 0 < len main_dll) as Hindx.
  { vm_compute. split; [discriminate|reflexivity]. }
  assert (len main_dll < INT_MAX) as Hlt by (vm_compute; reflexivity).
  assert (fits "B") as Htxt by (vm_compute; reflexivity).
  split; [exact Hrepr|]. split; [exact Hindx|]. split; [exact Hlt|].
  split; [exact Htxt|].
  exact (insert_before_keeps_tail _ _ _ 0 "B" Hrepr Hindx Hlt Htxt).
Defined.

(** C9. Starting from the empty list, [append] once for each of N >= 1
    texts and then [delete (N-1)], [delete (N-2)], ..., [delete (0)]
    gives the empty list again: head and tail absent, [len] 0. *)
Theorem append_then_delete_all w txts :
  txts ≠ [] → Forall fits txts → Z.of_nat (length txts) ≤ INT_MAX →
  ∃ w', (let* d := append_all empty_dll txts in
         delete_down d (length txts)) w = Ok (empty_dll, w').
Proof.
  intros _ Hfit Hmax.
  destruct (append_all_eq txts w empty_dll [] (dll_repr_empty w) Hfit)
    as (d1 & w1 & cs & Hrun1 & Hrepr1 & Hlen); [cbn [len empty_dll]; lia|].
  destruct (delete_down_eq (length txts) w1 d1 cs Hrepr1 Hlen)
    as (d2 & w2 & Hrun2 & Hrepr2).
  apply dll_repr_nil_inv in Hrepr2 as ->.
  exists w2. by rewrite (bind_eq _ _ _ _ _ Hrun1).
Qed.

Lemma append_then_delete_all_witness :
  ["x"; "y"; "z"] ≠ [] ∧ Forall fits ["x"; "y"; "z"] ∧
  Z.of_nat (length ["x"; "y"; "z"]) ≤ INT_MAX ∧
  ∃ w', (let* d := append_all empty_dll ["x"; "y"; "z"] in
         delete_down d (length ["x"; "y"; "z"])) world0
        = Ok (empty_dll, w').
Proof.
  assert (["x"; "y"; "z"] ≠ []) as Hne by discriminate.
  assert (Forall fits ["x"; "y"; "z"]) as Hfit.
  { repeat constructor; vm_compute; reflexivity. }
  assert (Z.of_nat (length ["x"; "y"; "z"]) ≤ INT_MAX) as Hmax.
  { vm_compute. discriminate. }
  split; [exact Hne|]. split; [exact Hfit|]. split; [exact Hmax|].
  exact (append_then_delete_all world0 _ Hne Hfit Hmax).
Defined.

(** C10. A negative index passes the range check of [insert]
    ([indx > len]) and that of [delete] ([indx >= len]); the loop that
    follows never sees its counter meet the index and follows [next]
    past the last node, through the null pointer. *)
Theorem negative_index_runs_off_the_chain w d cs indx txt :
  dll_repr w d cs → indx < 0 →
  bool_decide (indx > len d) = false ∧
  bool_decide (indx >= len d) = false ∧
  insert d indx txt w = UB NullDeref ∧
  delete d indx w = UB NullDeref.
Proof.
  intros Hrepr Hneg. pose proof (dll_repr_len_nonneg _ _ _ Hrepr) as Hlen.
  split_and!.
  - apply bool_decide_eq_false_2. lia.
  - apply bool_decide_eq_false_2. lia.
  - by eapply insert_negative.
  - by eapply delete_negative.
Qed.

Lemma negative_index_runs_off_the_chain_witness :
  dll_repr main_world main_dll main_cells ∧ -1 < 0 ∧
  bool_decide (-1 > len main_dll) = false ∧
  bool_decide (-1 >= len main_dll) = false ∧
  insert main_dll (-1) "B" main_world = UB NullDeref ∧
  delete main_dll (-1) main_world = UB NullDeref.
Proof.
  assert (dll_repr main_world main_dll main_cells) as Hrepr.
  { apply (bool_decide_unpack _). vm_compute. exact I. }
  assert (-1 < 0) as Hneg by (vm_compute; reflexivity).
  split; [exact Hrepr|]. split; [exact Hneg|].
  exact (negative_index_runs_off_the_chain _ _ _ (-1) "B" Hrepr Hneg).
Defined.

(** * Further properties of the code *)

(** ** What the operations leave alone *)

Lemma with_cell_lookup_ne w c pv nx x :
  x ≠ c_node c → x ≠ c_buf c →
  mem (with_cell w c pv nx) !! x = mem w !! x.
Proof.
  intros Hn Hb. unfold with_cell. rewrite mem_set_mem.
  by rewrite !lookup_insert_ne.
Qed.

Lemma link_after_last_frame w l c txt :
  dlseg (mem w) NULL (l ++ [c]) NULL → fits txt →
  ∃ w', (let* new := create_node txt (Some (c_node c)) NULL in
         set_next (Some (c_node c)) new;;; ret new) w
        = Ok (Some (node_loc w), w') ∧
        ∀ x, x ≠ c_node c → x ≠ node_loc w → x ≠ buf_loc w →
             mem w' !! x = mem w !! x.
Proof.
  intros Hseg Htxt.
  rewrite (bind_eq _ _ _ _ _ (create_node_eq _ _ _ _ Htxt)).
  destruct (dlseg_mid _ _ _ _ _ _ Hseg) as [Hn Hb]. simpl in Hn.
  pose proof (with_cell_lookup w txt (Some (c_node c)) NULL _ _ Hn) as Hn'.
  rewrite (bind_eq _ _ _ _ _ (set_next_eq _ _ _ _ Hn')).
  eexists. split; [done|]. intros x Hc Ha Hbf. rewrite mem_set_mem.
  rewrite lookup_insert_ne by done. by apply with_cell_lookup_ne.
Qed.

Lemma Ok_inj {A} (a b : A) (w w' : world) :
  Ok (a, w) = Ok (b, w') → a = b ∧ w = w'.
Proof. by intros [= -> ->]. Qed.

(** [append] writes to the last node of the list and to the two
    locations it allocates, and to nothing else. *)
Lemma append_frame w d cs txt d' w' :
  dll_repr w d cs → fits txt → append d txt w = Ok (d', w') →
  ∀ x, x ∉ nodes cs → x ≠ node_loc w → x ≠ buf_loc w →
       mem w' !! x = mem w !! x.
Proof.
  intros (Hseg & Hnd & Hhd & Htl & Hlen & Hmax) Htxt Hrun x Hx Ha Hb.
  unfold append in Hrun.
  destruct (list_snoc_cases cs) as [->|(l & c & ->)].
  - simpl in Hhd. rewrite Hhd in Hrun.
    rewrite bool_decide_eq_true_2 in Hrun by done.
    erewrite bind_eq in Hrun;
      [|by erewrite bind_eq; [|by apply create_node_eq]].
    unfold bind, int_add in Hrun. cbn [len] in Hrun.
    case_bool_decide; [|done]. apply Ok_inj in Hrun as [_ <-].
    by apply with_cell_lookup_ne.
  - rewrite last_ptr_snoc in Htl.
    destruct (link_after_last_frame w l c txt Hseg Htxt)
      as (w1 & Hrun1 & Hfr).
    assert (head d ≠ NULL) as Hnn.
    { rewrite Hhd, first_ptr_app. by destruct l. }
    rewrite bool_decide_eq_false_2 in Hrun by done.
    assert (∀ hd, (let* new := create_node txt (Some (c_node c)) NULL in
                   set_next (Some (c_node c)) new;;;
                   ret (mkDLL hd new (len d))) w
                  = Ok (mkDLL hd (Some (node_loc w)) (len d), w1)) as Hbr.
    { intros hd. unfold bind in Hrun1 |- *.
      destruct (create_node txt (Some (c_node c)) NULL w) as [[new w2]| |];
        [|done..].
      destruct (set_next (Some (c_node c)) new w2) as [[[] w3]| |]; [|done..].
      unfold ret in *. by simplify_eq. }
    assert (c_node c ∈ nodes (l ++ [c])) as Hc.
    { rewrite nodes_app. apply elem_of_app. right. apply list_elem_of_here. }
    assert (w' = w1) as ->.
    { destruct (bool_decide (head d = tail d)) eqn:Heq.
      - apply bool_decide_eq_true in Heq. rewrite Heq, Htl in Hrun.
        rewrite (bind_eq _ _ _ _ _ (Hbr _)) in Hrun.
        unfold bind, int_add in Hrun. cbn [len] in Hrun.
        case_bool_decide; [|done]. by apply Ok_inj in Hrun as [_ <-].
      - rewrite Htl in Hrun.
        rewrite (bind_eq _ _ _ _ _ (Hbr _)) in Hrun.
        unfold bind, int_add in Hrun. cbn [len] in Hrun.
        case_bool_decide; [|done]. by apply Ok_inj in Hrun as [_ <-]. }
    apply Hfr; [|done..]. intros ->. by apply Hx.
Qed.

(** The end of [delete] touches the freed node only. *)
Lemma unlink_finish_frame w c n hd tl lenv :
  mem w !! c = Some (BNode n) → INT_MIN ≤ lenv - 1 ≤ INT_MAX →
  ∃ d' w', (let* l := int_sub lenv 1 in
            free (Some c);;; ret (mkDLL hd tl l)) w = Ok (d', w') ∧
           ∀ x, x ≠ c → mem w' !! x = mem w !! x.
Proof.
  intros Hc Hr.
  mstep ltac:(by apply int_sub_eq).
  rewrite (bind_eq _ _ _ _ _ (free_eq _ _ _ Hc)).
  do 2 eexists. split; [done|]. intros x Hx. rewrite mem_set_mem.
  by rewrite lookup_delete_ne.
Qed.

(** [delete] writes to nodes of the list and to nothing else. *)
Lemma delete_split_frame w d l1 c l2 :
  dll_repr w d (l1 ++ c :: l2) →
  ∃ d' w', delete d (Z.of_nat (length l1)) w = Ok (d', w') ∧
           ∀ x, x ∉ nodes (l1 ++ c :: l2) → mem w' !! x = mem w !! x.
Proof.
  intros (Hseg & Hnd & Hhd & Htl & Hlen & Hmax).
  rewrite length_app_cons in Hlen. unfold delete.
  rewrite bool_decide_eq_false_2 by lia.
  rewrite Hhd.
  mstep ltac:(apply seek_eq; [done|rewrite length_app_cons; lia|lia]).
  rewrite Nat2Z.id, drop_app_length. cbn [first_ptr].
  pose proof Hseg as [Hw1 (Hn & Hb & Hw2)]%dlseg_app.
  cbn [first_ptr] in Hw1.
  destruct (NoDup_nodes_remove _ _ _ Hnd)
    as (Hnd' & Hnd1 & Hnd2 & Hc1 & Hc2 & Hd12 & Hd21).
  set (pv := last_ptr l1 NULL) in *. set (nx := first_ptr l2 NULL) in *.
  assert (∀ x, x ∉ nodes (l1 ++ c :: l2) →
               (x ∉ nodes l1) ∧ x ≠ c_node c ∧ (x ∉ nodes l2)) as Hout.
  { intros x Hx. rewrite nodes_app in Hx. cbn [nodes fmap list_fmap] in Hx.
    split_and!.
    - intros Hin. apply Hx, elem_of_app. by left.
    - intros ->. apply Hx, elem_of_app. right. apply list_elem_of_here.
    - intros Hin. apply Hx, elem_of_app. right.
      by apply list_elem_of_further. }
  assert (INT_MIN ≤ len d - 1 ≤ INT_MAX) as Hr by int_range.
  destruct (decide (l1 = [])) as [He1|Hne1];
    destruct (decide (l2 = [])) as [He2|Hne2].
  - subst l1 l2. simpl in Hlen.
    rewrite bool_decide_eq_true_2 by lia.
    destruct (unlink_finish_frame w _ _ NULL NULL (len d) Hn Hr)
      as (d' & w' & Hrun & Hfr).
    exists d', w'. split; [done|]. intros x Hx. apply Hfr.
    by destruct (Hout x Hx) as (_ & ? & _).
  - subst l1. cbn [length] in *.
    assert (len d ≠ 1) as Hl1 by (destruct l2; [done|cbn [length] in *; lia]).
    rewrite bool_decide_eq_false_2 by done.
    rewrite bool_decide_eq_true_2 by done.
    destruct (relink_first w _ NULL l2 NULL Hw2 Hnd2 Hne2)
      as (w2 & Hrun2 & H2' & Hcon2 & Hfr2).
    pose proof Hn as Hn2. rewrite <- (Hfr2 _ Hc2) in Hn2.
    erewrite bind_eq; cycle 1.
    { rewrite (bind_eq _ _ _ _ _ (load_node_eq _ _ _ Hn)). cbn [next].
      fold nx. rewrite (bind_eq _ _ _ _ _ Hrun2).
      rewrite (bind_eq _ _ _ _ _ (load_node_eq _ _ _ Hn2)). cbn [next].
      reflexivity. }
    cbn [head tail len].
    destruct (unlink_finish_frame w2 _ _ nx (tail d) (len d) Hn2 Hr)
      as (d' & w' & Hrun & Hfr).
    exists d', w'. split; [done|]. intros x Hx.
    destruct (Hout x Hx) as (_ & ? & ?). by rewrite Hfr, Hfr2.
  - subst l2. cbn [length] in *.
    assert (0 < Z.of_nat (length l1)) as Hpos.
    { destruct l1; [done|cbn [length]; lia]. }
    rewrite bool_decide_eq_false_2 by lia.
    rewrite bool_decide_eq_false_2 by lia.
    destruct (relink_last w _ l1 _ NULL Hw1 Hnd1 Hne1)
      as (w2 & Hrun2 & H1' & Hcon2 & Hfr2).
    pose proof Hn as Hn2. rewrite <- (Hfr2 _ Hc1) in Hn2.
    erewrite bind_eq; cycle 1.
    { mstep ltac:(apply int_sub_eq; int_range).
      rewrite bool_decide_eq_true_2 by lia.
      rewrite (bind_eq _ _ _ _ _ (load_node_eq _ _ _ Hn)). cbn [prev].
      fold pv. rewrite (bind_eq _ _ _ _ _ Hrun2).
      rewrite (bind_eq _ _ _ _ _ (load_node_eq _ _ _ Hn2)). cbn [prev].
      reflexivity. }
    cbn [head tail len].
    destruct (unlink_finish_frame w2 _ _ (first_ptr (l1 ++ [c]) NULL) pv
                (len d) Hn2 Hr) as (d' & w' & Hrun & Hfr).
    exists d', w'. split; [done|]. intros x Hx.
    destruct (Hout x Hx) as (? & ? & _). by rewrite Hfr, Hfr2.
  - assert (0 < Z.of_nat (length l1)) as Hpos1.
    { destruct l1; [done|cbn [length]; lia]. }
    assert (0 < Z.of_nat (length l2)) as Hpos2.
    { destruct l2; [done|cbn [length]; lia]. }
    rewrite bool_decide_eq_false_2 by lia.
    rewrite bool_decide_eq_false_2 by lia.
    destruct (relink_last w _ l1 _ nx Hw1 Hnd1 Hne1)
      as (w2 & Hrun2 & H1' & Hcon2 & Hfr2).
    pose proof Hn as Hn2. rewrite <- (Hfr2 _ Hc1) in Hn2.
    assert (dlseg (mem w2) (Some (c_node c)) l2 NULL) as H2'.
    { by apply (dlseg_stable (mem w) _ _ _ _ NULL l1 (Some (c_node c))). }
    destruct (relink_first w2 _ pv l2 NULL H2' Hnd2 Hne2)
      as (w3 & Hrun3 & H2'' & Hcon3 & Hfr3).
    pose proof Hn2 as Hn3. rewrite <- (Hfr3 _ Hc2) in Hn3.
    erewrite bind_eq; cycle 1.
    { mstep ltac:(apply int_sub_eq; int_range).
      rewrite bool_decide_eq_false_2 by lia.
      rewrite (bind_eq _ _ _ _ _ (load_node_eq _ _ _ Hn)). cbn [prev next].
      fold pv nx. rewrite (bind_eq _ _ _ _ _ Hrun2).
      rewrite (bind_eq _ _ _ _ _ (load_node_eq _ _ _ Hn2)). cbn [prev next].
      fold pv nx. rewrite (bind_eq _ _ _ _ _ Hrun3).
      reflexivity. }
    destruct (unlink_finish_frame w3 _ _ (head d) (tail d) (len d) Hn3 Hr)
      as (d' & w' & Hrun & Hfr).
    exists d', w'. split; [exact Hrun|]. intros x Hx.
    destruct (Hout x Hx) as (? & ? & ?). by rewrite Hfr, Hfr3, Hfr2.
Qed.

(** ** free_dll *)

Lemma run_loop_exit {L R} (body : L → M (L + R)) n l w x w' :
  body l w = Ok (inr x, w') → run_loop body n l w = Ok (x, w').
Proof.
  intros H. unfold run_loop.
  assert (loop body n l w = Ok (inr x, w')) as ->%(bind_eq _ _ _ _ _); [|done].
  induction n as [|n IH]; [done|]. cbn [loop].
  by rewrite (bind_eq _ _ _ _ _ IH).
Qed.

Lemma first_ptr_not_in l c nx :
  l ≠ [] → c_node c ∉ nodes l → Some (c_node c) ≠ first_ptr l nx.
Proof.
  intros Hne Hc. destruct l as [|f l]; [done|]. cbn [first_ptr].
  intros [= Heq]. apply Hc. rewrite Heq. apply list_elem_of_here.
Qed.

(** The loop of [free_dll] on a well-formed, non-empty list: it stops at
    the head with every other node freed and nothing else touched. *)
Lemma free_dll_loop w l c_last :
  dlseg (mem w) NULL (l ++ [c_last]) NULL → NoDup (nodes (l ++ [c_last])) →
  ∃ c l2 w1 n,
    l ++ [c_last] = c :: l2 ∧
    run_loop (free_dll_body (first_ptr (l ++ [c_last]) NULL))
      (size (mem w) + size (mem w)) (Some (c_node c_last)) w
    = Ok (Some (c_node c), w1) ∧
    mem w1 !! c_node c = Some (BNode n) ∧
    (∀ x, x ∈ nodes l2 → mem w1 !! x = None) ∧
    (∀ x, x ∉ nodes l2 → mem w1 !! x = mem w !! x) ∧
    console w1 = console w.
Proof.
  intros Hseg Hnd. set (cs := l ++ [c_last]) in *.
  apply (run_loop_rule (free_dll_body (first_ptr cs NULL))
           (λ v t w', ∃ l1 c l2,
              cs = l1 ++ c :: l2 ∧ v = Z.of_nat (length l1) ∧
              t = Some (c_node c) ∧
              dlseg (mem w') NULL (l1 ++ [c]) (first_ptr l2 NULL) ∧
              (∀ x, x ∈ nodes l2 → mem w' !! x = None) ∧
              (∀ x, x ∉ nodes l2 → mem w' !! x = mem w !! x) ∧
              console w' = console w)
           (λ o, ∃ c l2 w1 n,
              cs = c :: l2 ∧ o = Ok (Some (c_node c), w1) ∧
              mem w1 !! c_node c = Some (BNode n) ∧
              (∀ x, x ∈ nodes l2 → mem w1 !! x = None) ∧
              (∀ x, x ∉ nodes l2 → mem w1 !! x = mem w !! x) ∧
              console w1 = console w))
    with (v := Z.of_nat (length l)).
  - intros v t w' (l1 & c & l2 & _ & -> & _). lia.
  - intros v t w' (l1 & c & l2 & Hcs & -> & -> & Hs & Hfreed & Hfr & Hcon).
    unfold free_dll_body.
    rewrite Hcs in Hnd.
    destruct (NoDup_nodes_remove _ _ _ Hnd)
      as (_ & Hnd1 & _ & Hc1 & Hc2 & _ & _).
    destruct (list_snoc_cases l1) as [->|(l0 & p & ->)].
    + rewrite Hcs. cbn [app first_ptr].
      rewrite bool_decide_eq_false_2 by (intros H; by apply H).
      simpl. destruct Hs as (Hn & _).
      exists c, l2, w'. eexists. by split_and!.
    + rewrite bool_decide_eq_true_2.
      2:{ rewrite Hcs, first_ptr_app. apply first_ptr_not_in; [|done].
          by destruct l0. }
      destruct (dlseg_mid _ _ _ _ _ _ Hs) as [Hn _].
      rewrite (bind_eq _ _ _ _ _ (load_node_eq _ _ _ Hn)).
      cbn [prev]. rewrite last_ptr_snoc.
      pose proof Hs as Hs'. rewrite <- app_assoc in Hs'.
      destruct (dlseg_mid _ _ _ _ _ _ Hs') as [Hp _].
      rewrite (bind_eq _ _ _ _ _ (load_node_eq _ _ _ Hp)).
      cbn [next first_ptr app].
      rewrite (bind_eq _ _ _ _ _ (free_eq _ _ _ Hn)).
      simpl. exists (Z.of_nat (length l0)). split.
      2:{ rewrite length_app. cbn [length]. lia. }
      exists l0, p, (c :: l2). rewrite ?mem_set_mem.
      split_and!; try done.
      * by rewrite Hcs, <- app_assoc.
      * apply dlseg_app in Hs as [Hs1 _]. cbn [first_ptr] in *.
        apply dlseg_delete_frame; [done..|]. by eapply not_chars_node.
      * intros x Hx. destruct (decide (x = c_node c)) as [->|Hne].
        { apply lookup_delete_eq. }
        rewrite lookup_delete_ne by done. apply Hfreed.
        cbn [nodes fmap list_fmap] in Hx.
        by apply elem_of_cons in Hx as [?|?].
      * intros x Hx. cbn [nodes fmap list_fmap] in Hx.
        apply not_elem_of_cons in Hx as [Hne Hx].
        rewrite lookup_delete_ne by done. by apply Hfr.
  - exists l, c_last, []. split_and!; try done.
    intros x Hx. by apply elem_of_nil in Hx.
  - pose proof (dlseg_length_size _ _ _ _ Hseg Hnd) as Hsz.
    subst cs. rewrite length_app in Hsz. cbn [length] in Hsz.
    rewrite Nat2Z.inj_add.
    assert (Z.of_nat (size (mem w)) + Z.of_nat (size (mem w))
            < 2 ^ (Z.of_nat (size (mem w)) + Z.of_nat (size (mem w)))).
    { apply Z.pow_gt_lin_r; lia. }
    lia.
Qed.

Lemma free_dll_eq w d cs :
  dll_repr w d cs →
  ∃ w', free_dll d w = Ok (tt, w') ∧
        (∀ x, x ∈ nodes cs → mem w' !! x = None) ∧
        (∀ x, x ∉ nodes cs → mem w' !! x = mem w !! x) ∧
        console w' = console w.
Proof.
  intros (Hseg & Hnd & Hhd & Htl & Hlen & Hmax). unfold free_dll.
  rewrite Hhd, Htl.
  destruct (list_snoc_cases cs) as [->|(l & c_last & ->)].
  - cbn [first_ptr last_ptr].
    erewrite bind_eq; [|by apply run_loop_exit]. exists w.
    split_and!; try done. intros x Hx. by apply elem_of_nil in Hx.
  - rewrite last_ptr_snoc.
    destruct (free_dll_loop w l c_last Hseg Hnd)
      as (c & l2 & w1 & n & Hcs & Hrun & Hn & Hfreed & Hfr & Hcon).
    rewrite (bind_eq _ _ _ _ _ Hrun).
    rewrite (free_eq _ _ _ Hn). eexists. split; [done|].
    rewrite mem_set_mem, Hcs. split_and!; [| |done].
    + intros x Hx. cbn [nodes fmap list_fmap] in Hx.
      destruct (decide (x = c_node c)) as [->|Hne].
      { apply lookup_delete_eq. }
      rewrite lookup_delete_ne by done. apply Hfreed.
      by apply elem_of_cons in Hx as [?|?].
    + intros x Hx. cbn [nodes fmap list_fmap] in Hx.
      apply not_elem_of_cons in Hx as [Hne Hx].
      rewrite lookup_delete_ne by done. by apply Hfr.
Qed.

(** ** Composing the operations *)

Lemma dll_repr_header_eq w w' d d' cs :
  dll_repr w d cs → dll_repr w' d' cs → d = d'.
Proof.
  intros (_ & _ & Hh & Ht & Hl & _) (_ & _ & Hh' & Ht' & Hl' & _).
  destruct d, d'. simpl in *. congruence.
Qed.

Lemma dll_repr_mem w w' d cs :
  mem w' = mem w → dll_repr w d cs → dll_repr w' d cs.
Proof. unfold dll_repr. by intros ->. Qed.

Lemma create_repr w txt :
  dll_repr (with_cell w (new_cell w txt) NULL NULL)
    (mkDLL (Some (node_loc w)) (Some (node_loc w)) 1) [new_cell w txt].
Proof.
  unfold dll_repr. cbn [head tail len]. split_and!; try done.
  - simpl. split_and!; [apply with_cell_node|apply with_cell_buf|done].
  - simpl. apply NoDup_singleton.
Qed.

(** [insert] with any valid index, the one that appends included. *)
Lemma insert_valid_eq w d cs indx txt :
  dll_repr w d cs → 0 ≤ indx ≤ len d → len d < INT_MAX → fits txt →
  ∃ d' w', insert d indx txt w = Ok (d', w') ∧
           dll_repr w' d'
             (take (Z.to_nat indx) cs ++ new_cell w txt
                :: drop (Z.to_nat indx) cs) ∧
           console w' = console w.
Proof.
  intros Hrepr Hindx Hlt Htxt.
  destruct (decide (indx = len d)) as [->|Hne].
  - rewrite insert_at_end.
    destruct (append_eq w d cs txt Hrepr Hlt Htxt)
      as (d' & w' & Hrun & Hrepr' & Hcon).
    pose proof Hrepr as (_ & _ & _ & _ & -> & _).
    rewrite Nat2Z.id, take_ge, drop_ge by lia. by eauto.
  - destruct (insert_at w d cs indx txt Hrepr ltac:(lia) Hlt Htxt)
      as (d' & w' & Hrun & Hrepr' & Hcon & _). by eauto.
Qed.

Lemma texts_insert cs k c :
  texts (take k cs ++ c :: drop k cs)
  = take k (texts cs) ++ c_text c :: drop k (texts cs).
Proof. unfold texts. by rewrite fmap_app, fmap_cons, fmap_take, fmap_drop. Qed.

Lemma length_texts cs : length (texts cs) = length cs.
Proof. apply length_fmap. Qed.

Lemma find_result_absent target xs r :
  target ∉ xs → find_result target xs r → r = -1.
Proof.
  intros Hno [[-> _]|(_ & Hr & _)]; [done|].
  destruct Hno. by eapply list_elem_of_lookup_2.
Qed.

Lemma find_result_present target xs r :
  target ∈ xs → find_result target xs r →
  0 ≤ r < Z.of_nat (length xs) ∧ xs !! Z.to_nat r = Some target ∧
  ∀ j, (j < Z.to_nat r)%nat → xs !! j ≠ Some target.
Proof.
  intros Hin [[_ Hno]|(H0 & Hr & Hfirst)]; [done|].
  split_and!; try done. apply lookup_lt_Some in Hr. lia.
Qed.

(** The first occurrence of a text that is new to the list is where it
    was put. *)
Lemma find_result_inserted txt xs k r :
  (k ≤ length xs)%nat → txt ∉ xs →
  find_result txt (take k xs ++ txt :: drop k xs) r → r = Z.of_nat k.
Proof.
  intros Hk Hno Hres.
  assert ((take k xs ++ txt :: drop k xs) !! k = Some txt) as Hat.
  { apply list_lookup_middle. by rewrite length_take_le. }
  apply find_result_present in Hres as (Hr & Hlook & Hfirst).
  2:{ by eapply list_elem_of_lookup_2. }
  destruct (decide (Z.to_nat r = k)) as [<-|Hne]; [lia|].
  destruct (decide (Z.to_nat r < k)%nat) as [Hlt|Hge].
  - rewrite lookup_app_l in Hlook by (rewrite length_take_le; lia).
    rewrite lookup_take_lt in Hlook by done.
    destruct Hno. by eapply list_elem_of_lookup_2.
  - destruct (Hfirst k); [lia|done].
Qed.

(** * Further properties *)

(** X1. [create_doubly_linked_list] with a text that fits its buffer
    returns a well-formed list of exactly one node holding that text,
    which is both head and tail, with [len] 1; it prints nothing and
    leaves every block that was live before as it was. *)
Theorem create_builds_list w txt :
  fits txt →
  ∃ d' w', create_doubly_linked_list txt w = Ok (d', w') ∧
           dll_repr w' d' [new_cell w txt] ∧
           head d' = tail d' ∧ head d' = Some (node_loc w) ∧ len d' = 1 ∧
           console w' = console w ∧
           ∀ x b, mem w !! x = Some b → mem w' !! x = Some b.
Proof.
  intros Htxt. do 2 eexists.
  split; [by apply create_doubly_linked_list_eq|].
  split; [apply create_repr|]. split_and!; try done.
  intros x b Hx. by apply with_cell_lookup.
Qed.

Lemma create_builds_list_witness :
  fits "Head" ∧
  ∃ d' w', create_doubly_linked_list "Head" world0 = Ok (d', w') ∧
           dll_repr w' d' [new_cell world0 "Head"] ∧
           head d' = tail d' ∧ head d' = Some (node_loc world0) ∧
           len d' = 1 ∧
           console w' = console world0 ∧
           ∀ x b, mem world0 !! x = Some b → mem w' !! x = Some b.
Proof.
  assert (fits "Head") as Htxt by (vm_compute; reflexivity).
  split; [exact Htxt|]. exact (create_builds_list world0 "Head" Htxt).
Defined.

(** X2. A text of [MAX_DATA_LEN] characters or more overruns the payload
    buffer in every operation that creates a node, in every state:
    [create_node], [create_doubly_linked_list] and [append] always, and
    [insert] with any valid index on a well-formed list.  None of them
    checks the length before [strcpy]. *)
Theorem long_text_overruns w d cs indx txt pv nx :
  MAX_DATA_LEN ≤ Z.of_nat (String.length txt) →
  dll_repr w d cs → 0 ≤ indx ≤ len d →
  create_node txt pv nx w = UB BufferOverrun ∧
  create_doubly_linked_list txt w = UB BufferOverrun ∧
  append d txt w = UB BufferOverrun ∧
  insert d indx txt w = UB BufferOverrun.
Proof.
  intros Hlong Hrepr Hindx.
  assert (append d txt w = UB BufferOverrun) as Happ.
  { unfold append. apply bind_UB.
    repeat case_bool_decide; by apply bind_UB, create_node_overrun. }
  split_and!; [by apply create_node_overrun
              |by apply create_doubly_linked_list_overrun|done|].
  destruct (decide (indx = len d)) as [->|Hne]; [by rewrite insert_at_end|].
  pose proof Hrepr as (Hseg & _ & Hhd & _ & Hlen & Hmax).
  unfold insert.
  rewrite bool_decide_eq_false_2 by lia.
  rewrite bool_decide_eq_false_2 by lia.
  rewrite Hhd.
  mstep ltac:(apply seek_eq; [done|lia|lia]).
  destruct (lookup_lt_is_Some_2 cs (Z.to_nat indx)) as [c Hc]; [lia|].
  rewrite (first_ptr_drop _ _ _ Hc).
  destruct (dlseg_at _ _ _ _ _ _ Hseg Hc) as [Hn _].
  rewrite (bind_eq _ _ _ _ _ (load_node_eq _ _ _ Hn)).
  by apply bind_UB, create_node_overrun.
Qed.

Lemma long_text_overruns_witness :
  MAX_DATA_LEN ≤ Z.of_nat (String.length (text_of_length 100)) ∧
  dll_repr main_world main_dll main_cells ∧ 0 ≤ 1 ≤ len main_dll ∧
  create_node (text_of_length 100) NULL NULL main_world = UB BufferOverrun ∧
  create_doubly_linked_list (text_of_length 100) main_world
  = UB BufferOverrun ∧
  append main_dll (text_of_length 100) main_world = UB BufferOverrun ∧
  insert main_dll 1 (text_of_length 100) main_world = UB BufferOverrun.
Proof.
  assert (MAX_DATA_LEN ≤ Z.of_nat (String.length (text_of_length 100)))
    as Hlong by (vm_compute; discriminate).
  assert (dll_repr main_world main_dll main_cells) as Hrepr.
  { apply (bool_decide_unpack _). vm_compute. exact I. }
  assert (0 ≤ 1 ≤ len main_dll) as Hindx.
  { vm_compute. split; discriminate. }
  split; [exact Hlong|]. split; [exact Hrepr|]. split; [exact Hindx|].
  exact (long_text_overruns _ _ _ 1 _ NULL NULL Hlong Hrepr Hindx).
Defined.

(** X3. On a well-formed list every valid mutating call does to the
    sequence of payloads what the matching list operation does: [append]
    adds the text at the end, [insert] puts it at the index and moves
    the rest one place on, [delete] takes the payload at the index out;
    [len] is the new number of payloads and nothing is printed. *)
Theorem calls_refine_list_operations w d cs c :
  dll_repr w d cs → valid_call d c →
  ∃ d' w' cs', run_call d c w = Ok (d', w') ∧
               dll_repr w' d' cs' ∧
               texts cs' = apply_call c (texts cs) ∧
               len d' = Z.of_nat (length (apply_call c (texts cs))) ∧
               console w' = console w.
Proof.
  intros Hrepr Hvalid.
  assert (∀ d' w' cs' xs, dll_repr w' d' cs' → texts cs' = xs →
                          len d' = Z.of_nat (length xs)) as Hlen.
  { intros d' w' cs' xs (_ & _ & _ & _ & -> & _) <-.
    by rewrite length_texts. }
  destruct c as [txt|indx txt|indx]; cbn [run_call apply_call valid_call] in *.
  - destruct Hvalid as [Htxt Hlt].
    destruct (append_eq w d cs txt Hrepr Hlt Htxt)
      as (d' & w' & Hrun & Hrepr' & Hcon).
    assert (texts (cs ++ [new_cell w txt]) = texts cs ++ [txt]) as Htexts.
    { unfold texts. by rewrite fmap_app. }
    exists d', w'. eexists. split_and!; [done..|by eapply Hlen|done].
  - destruct Hvalid as (Hindx & Htxt & Hlt).
    destruct (insert_valid_eq w d cs indx txt Hrepr Hindx Hlt Htxt)
      as (d' & w' & Hrun & Hrepr' & Hcon).
    pose proof (texts_insert cs (Z.to_nat indx) (new_cell w txt)) as Htexts.
    exists d', w'. eexists. split_and!; [done..|by eapply Hlen|done].
  - destruct (delete_at w d cs indx Hrepr Hvalid)
      as (c & d' & w' & _ & Hrun & Hrepr' & Hcon & _).
    assert (texts (base.delete (Z.to_nat indx) cs)
            = base.delete (Z.to_nat indx) (texts cs)) as Htexts.
    { unfold texts. apply list_fmap_delete. }
    exists d', w'. eexists. split_and!; [done..|by eapply Hlen|done].
Qed.

Lemma calls_refine_list_operations_witness :
  dll_repr main_world main_dll main_cells ∧
  valid_call main_dll (CallInsert 1 "B") ∧
  ∃ d' w' cs', run_call main_dll (CallInsert 1 "B") main_world
               = Ok (d', w') ∧
               dll_repr w' d' cs' ∧
               texts cs' = apply_call (CallInsert 1 "B") (texts main_cells) ∧
               len d' = Z.of_nat (length (apply_call (CallInsert 1 "B")
                                            (texts main_cells))) ∧
               console w' = console main_world.
Proof.
  assert (dll_repr main_world main_dll main_cells) as Hrepr.
  { apply (bool_decide_unpack _). vm_compute. exact I. }
  assert (valid_call main_dll (CallInsert 1 "B")) as Hvalid.
  { vm_compute. repeat split; discriminate. }
  split; [exact Hrepr|]. split; [exact Hvalid|].
  exact (calls_refine_list_operations _ _ _ _ Hrepr Hvalid).
Defined.

(** X4. [find] after [insert]: a text that is not yet in the list,
    inserted at any valid index from 0 to [len], is then found at
    exactly that index. *)
Theorem insert_then_find w d cs indx txt :
  dll_repr w d cs → 0 ≤ indx ≤ len d → len d < INT_MAX → fits txt →
  txt ∉ texts cs →
  ∃ w', (let* d' := insert d indx txt in find d' txt) w = Ok (indx, w').
Proof.
  intros Hrepr Hindx Hlt Htxt Hnew.
  destruct (insert_valid_eq w d cs indx txt Hrepr Hindx Hlt Htxt)
    as (d' & w' & Hrun & Hrepr' & _).
  destruct (find_eq w' d' _ txt Hrepr') as (r & Hfind & Hres).
  rewrite texts_insert in Hres. cbn [c_text new_cell] in Hres.
  apply find_result_inserted in Hres; [|..|done].
  - exists w'. rewrite (bind_eq _ _ _ _ _ Hrun), Hfind. do 2 f_equal. lia.
  - destruct Hrepr as (_ & _ & _ & _ & Hl & _). rewrite length_texts. lia.
Qed.

Lemma insert_then_find_witness :
  dll_repr main_world main_dll main_cells ∧ 0 ≤ 1 ≤ len main_dll ∧
  len main_dll < INT_MAX ∧ fits "B" ∧ ("B" ∉ texts main_cells) ∧
  ∃ w', (let* d' := insert main_dll 1 "B" in find d' "B") main_world
        = Ok (1, w').
Proof.
  assert (dll_repr main_world main_dll main_cells) as Hrepr.
  { apply (bool_decide_unpack _). vm_compute. exact I. }
  assert (0 ≤ 1 ≤ len main_dll) as Hindx.
  { vm_compute. split; discriminate. }
  assert (len main_dll < INT_MAX) as Hlt by (vm_compute; reflexivity).
  assert (fits "B") as Htxt by (vm_compute; reflexivity).
  assert ("B" ∉ texts main_cells) as Hnew.
  { apply (bool_decide_unpack _). vm_compute. exact I. }
  split; [exact Hrepr|]. split; [exact Hindx|]. split; [exact Hlt|].
  split; [exact Htxt|]. split; [exact Hnew|].
  exact (insert_then_find _ _ _ 1 "B" Hrepr Hindx Hlt Htxt Hnew).
Defined.

(** [delete] with a valid index, with what becomes of the payload
    buffer and of the rest of the heap. *)
Lemma delete_at_leak w d cs indx :
  dll_repr w d cs → 0 ≤ indx < len d →
  ∃ c d' w', cs !! Z.to_nat indx = Some c ∧
             delete d indx w = Ok (d', w') ∧
             dll_repr w' d' (base.delete (Z.to_nat indx) cs) ∧
             mem w' !! c_node c = None ∧
             mem w' !! c_buf c = Some (BChars MAX_DATA_LEN (c_text c)) ∧
             ∀ x, x ∉ nodes cs → mem w' !! x = mem w !! x.
Proof.
  intros Hrepr Hindx.
  destruct (delete_at w d cs indx Hrepr Hindx)
    as (c & d' & w' & Hc & Hrun & Hrepr' & _ & Hfree).
  pose proof Hrepr as (Hseg & _ & _ & _ & Hlen & _).
  pose proof Hrepr as Hsplit.
  rewrite <- (take_drop_middle _ _ _ Hc) in Hsplit.
  destruct (delete_split_frame _ _ _ _ _ Hsplit) as (d2 & w2 & Hrun2 & Hfr).
  rewrite length_take_le, Z2Nat.id in Hrun2 by lia.
  rewrite (take_drop_middle _ _ _ Hc) in Hfr.
  rewrite Hrun in Hrun2. apply Ok_inj in Hrun2 as [<- <-].
  exists c, d', w'. split_and!; try done.
  destruct (dlseg_at _ _ _ _ _ _ Hseg Hc) as [Hn Hb].
  rewrite Hfr; [done|]. intros Hin.
  destruct (dlseg_node_live _ _ _ _ _ Hseg Hin) as [n Hn'].
  by rewrite Hb in Hn'.
Qed.

(** X5. [insert] at a valid index followed by [delete] at the same
    index gives back the list: the same header and the same chain of
    nodes with the same links and payloads.  The node that was inserted
    is freed; its payload buffer is not. *)
Theorem insert_then_delete_restores w d cs indx txt :
  dll_repr w d cs → 0 ≤ indx ≤ len d → len d < INT_MAX → fits txt →
  ∃ w', (let* d' := insert d indx txt in delete d' indx) w = Ok (d, w') ∧
        dll_repr w' d cs ∧
        mem w' !! node_loc w = None ∧
        mem w' !! buf_loc w = Some (BChars MAX_DATA_LEN txt).
Proof.
  intros Hrepr Hindx Hlt Htxt.
  destruct (insert_valid_eq w d cs indx txt Hrepr Hindx Hlt Htxt)
    as (d1 & w1 & Hrun1 & Hrepr1 & _).
  pose proof Hrepr as (_ & _ & _ & _ & Hlen & _).
  pose proof Hrepr1 as (_ & _ & _ & _ & Hlen1 & _).
  rewrite length_app_cons, length_take_le, length_drop in Hlen1 by lia.
  destruct (delete_at_leak w1 d1 _ indx Hrepr1 ltac:(lia))
    as (c & d2 & w2 & Hc & Hrun2 & Hrepr2 & Hfree & Hbuf & _).
  rewrite list_lookup_middle in Hc by (rewrite length_take_le; lia).
  injection Hc as <-. cbn [c_node c_buf c_text new_cell] in *.
  replace (Z.to_nat indx) with (length (take (Z.to_nat indx) cs))
    in Hrepr2 at 1 by (rewrite length_take_le; lia).
  rewrite delete_middle, take_drop in Hrepr2.
  pose proof (dll_repr_header_eq _ _ _ _ _ Hrepr2 Hrepr) as ->.
  exists w2. split_and!; try done.
  by rewrite (bind_eq _ _ _ _ _ Hrun1).
Qed.

Lemma insert_then_delete_restores_witness :
  dll_repr main_world main_dll main_cells ∧ 0 ≤ 1 ≤ len main_dll ∧
  len main_dll < INT_MAX ∧ fits "B" ∧
  ∃ w', (let* d' := insert main_dll 1 "B" in delete d' 1) main_world
        = Ok (main_dll, w') ∧
        dll_repr w' main_dll main_cells ∧
        mem w' !! node_loc main_world = None ∧
        mem w' !! buf_loc main_world = Some (BChars MAX_DATA_LEN "B").
Proof.
  assert (dll_repr main_world main_dll main_cells) as Hrepr.
  { apply (bool_decide_unpack _). vm_compute. exact I. }
  assert (0 ≤ 1 ≤ len main_dll) as Hindx.
  { vm_compute. split; discriminate. }
  assert (len main_dll < INT_MAX) as Hlt by (vm_compute; reflexivity).
  assert (fits "B") as Htxt by (vm_compute; reflexivity).
  split; [exact Hrepr|]. split; [exact Hindx|]. split; [exact Hlt|].
  split; [exact Htxt|].
  exact (insert_then_delete_restores _ _ _ 1 "B" Hrepr Hindx Hlt Htxt).
Defined.

(** X6. [traverse_dll] on a well-formed list with at least one node
    prints each payload, head first, followed by an arrow, then [NULL]
    and a newline; it returns and leaves the heap as it was. *)
Theorem traverse_prints_payloads w d cs :
  dll_repr w d cs → cs ≠ [] →
  traverse_dll d w
  = Ok (tt, World (mem w) (console w +:+ render (texts cs))).
Proof. apply traverse_dll_eq. Qed.

Lemma traverse_prints_payloads_witness :
  dll_repr main_world main_dll main_cells ∧ main_cells ≠ [] ∧
  traverse_dll main_dll main_world
  = Ok (tt, World (mem main_world)
              (console main_world +:+ render (texts main_cells))).
Proof.
  assert (dll_repr main_world main_dll main_cells) as Hrepr.
  { apply (bool_decide_unpack _). vm_compute. exact I. }
  assert (main_cells ≠ []) as Hne by discriminate.
  split; [exact Hrepr|]. split; [exact Hne|].
  exact (traverse_prints_payloads _ _ _ Hrepr Hne).
Defined.



(** X8. [free_dll] on a well-formed list of any length, the empty one
    included, returns normally with every node of the list freed, each
    exactly once.  It frees nothing else: every payload buffer stays
    allocated with its text, and every location that is not a node of
    the list is as it was. *)
Theorem free_dll_frees_nodes w d cs :
  dll_repr w d cs →
  ∃ w', free_dll d w = Ok (tt, w') ∧
        (∀ x, x ∈ nodes cs → mem w' !! x = None) ∧
        (∀ c, c ∈ cs →
              mem w' !! c_buf c = Some (BChars MAX_DATA_LEN (c_text c))) ∧
        (∀ x, x ∉ nodes cs → mem w' !! x = mem w !! x) ∧
        console w' = console w.
Proof.
  intros Hrepr.
  destruct (free_dll_eq w d cs Hrepr) as (w' & Hrun & Hfreed & Hfr & Hcon).
  exists w'. split_and!; try done.
  intros c Hc. destruct Hrepr as (Hseg & _).
  apply list_elem_of_lookup in Hc as [i Hi].
  destruct (dlseg_at _ _ _ _ _ _ Hseg Hi) as [_ Hb].
  rewrite Hfr; [done|]. intros Hin.
  destruct (dlseg_node_live _ _ _ _ _ Hseg Hin) as [n Hn].
  by rewrite Hb in Hn.
Qed.

Lemma free_dll_frees_nodes_witness :
  dll_repr main_world main_dll main_cells ∧
  ∃ w', free_dll main_dll main_world = Ok (tt, w') ∧
        (∀ x, x ∈ nodes main_cells → mem w' !! x = None) ∧
        (∀ c, c ∈ main_cells →
              mem w' !! c_buf c = Some (BChars MAX_DATA_LEN (c_text c))) ∧
        (∀ x, x ∉ nodes main_cells → mem w' !! x = mem main_world !! x) ∧
        console w' = console main_world.
Proof.
  assert (dll_repr main_world main_dll main_cells) as Hrepr.
  { apply (bool_decide_unpack _). vm_compute. exact I. }
  split; [exact Hrepr|]. exact (free_dll_frees_nodes _ _ _ Hrepr).
Defined.

(** X9. [delete] at the index [find] returns: when the target is in the
    list, [find] returns the position of its first occurrence, that
    position is a valid index, and [delete] there takes exactly that
    occurrence out of the sequence of payloads. *)
Theorem delete_at_found_index w d cs target :
  dll_repr w d cs → target ∈ texts cs →
  ∃ r d' w' cs',
    find d target w = Ok (r, w) ∧ 0 ≤ r < len d ∧
    texts cs !! Z.to_nat r = Some target ∧
    (∀ j, (j < Z.to_nat r)%nat → texts cs !! j ≠ Some target) ∧
    (let* r := find d target in delete d r) w = Ok (d', w') ∧
    dll_repr w' d' cs' ∧
    texts cs' = base.delete (Z.to_nat r) (texts cs).
Proof.
  intros Hrepr Hin.
  destruct (find_eq w d cs target Hrepr) as (r & Hfind & Hres).
  apply find_result_present in Hres as (Hr & Hat & Hfirst); [|done].
  rewrite length_texts in Hr.
  pose proof Hrepr as (_ & _ & _ & _ & Hlen & _).
  destruct (delete_at w d cs r Hrepr ltac:(lia))
    as (c & d' & w' & _ & Hrun & Hrepr' & _).
  exists r, d', w'. eexists. split_and!; try done; try lia.
  - by rewrite (bind_eq _ _ _ _ _ Hfind).
  - unfold texts. apply list_fmap_delete.
Qed.

Lemma delete_at_found_index_witness :
  dll_repr main_world main_dll main_cells ∧ ("A" ∈ texts main_cells) ∧
  ∃ r d' w' cs',
    find main_dll "A" main_world = Ok (r, main_world) ∧
    0 ≤ r < len main_dll ∧
    texts main_cells !! Z.to_nat r = Some "A" ∧
    (∀ j, (j < Z.to_nat r)%nat → texts main_cells !! j ≠ Some "A") ∧
    (let* r := find main_dll "A" in delete main_dll r) main_world
    = Ok (d', w') ∧
    dll_repr w' d' cs' ∧
    texts cs' = base.delete (Z.to_nat r) (texts main_cells).
Proof.
  assert (dll_repr main_world main_dll main_cells) as Hrepr.
  { apply (bool_decide_unpack _). vm_compute. exact I. }
  assert ("A" ∈ texts main_cells) as Hin.
  { apply (bool_decide_unpack _). vm_compute. exact I. }
  split; [exact Hrepr|]. split; [exact Hin|].
  exact (delete_at_found_index _ _ _ "A" Hrepr Hin).
Defined.

(** X10. The value [find] returns for a text that is not in the list,
    -1, is not an index [delete] or [insert] rejects: passing it on ends
    in a null dereference. *)
Theorem not_found_index_faults w d cs target txt :
  dll_repr w d cs → target ∉ texts cs →
  find d target w = Ok (-1, w) ∧
  (let* r := find d target in delete d r) w = UB NullDeref ∧
  (let* r := find d target in insert d r txt) w = UB NullDeref.
Proof.
  intros Hrepr Hno.
  destruct (find_eq w d cs target Hrepr) as (r & Hfind & Hres).
  apply find_result_absent in Hres as ->; [|done].
  split_and!; [done| |]; rewrite (bind_eq _ _ _ _ _ Hfind).
  - by eapply delete_negative.
  - by eapply insert_negative.
Qed.

Lemma not_found_index_faults_witness :
  dll_repr main_world main_dll main_cells ∧ ("Ba" ∉ texts main_cells) ∧
  find main_dll "Ba" main_world = Ok (-1, main_world) ∧
  (let* r := find main_dll "Ba" in delete main_dll r) main_world
  = UB NullDeref ∧
  (let* r := find main_dll "Ba" in insert main_dll r "B") main_world
  = UB NullDeref.
Proof.
  assert (dll_repr main_world main_dll main_cells) as Hrepr.
  { apply (bool_decide_unpack _). vm_compute. exact I. }
  assert ("Ba" ∉ texts main_cells) as Hno.
  { apply (bool_decide_unpack _). vm_compute. exact I. }
  split; [exact Hrepr|]. split; [exact Hno|].
  exact (not_found_index_faults _ _ _ "Ba" "B" Hrepr Hno).
Defined.

(** X11. [main], started in any heap, returns 0 after printing the two
    payloads with their arrows and the end marker on one line and -1,
    the result of the search, on the next.  When it returns every node
    is freed again and the heap is the one it started in with two blocks
    added: the payload buffers of the two nodes, which nothing frees. *)
Theorem main_prints_and_leaks w :
  ∃ w' b1 b2,
    main w = Ok (0, w') ∧
    console w'
    = console w +:+ ("Head->A->NULL" +:+ newline) +:+ ("-1" +:+ newline) ∧
    b1 ≠ b2 ∧ mem w !! b1 = None ∧ mem w !! b2 = None ∧
    mem w' = <[b2 := BChars MAX_DATA_LEN "A"]>
               (<[b1 := BChars MAX_DATA_LEN "Head"]> (mem w)).
Proof.
  assert (fits "Head") as Hf1 by (vm_compute; reflexivity).
  assert (fits "A") as Hf2 by (vm_compute; reflexivity).
  unfold main.
  rewrite (bind_eq _ _ _ _ _ (create_doubly_linked_list_eq w "Head" Hf1)).
  set (c1 := new_cell w "Head").
  set (w1 := with_cell w c1 NULL NULL).
  set (d1 := mkDLL (Some (node_loc w)) (Some (node_loc w)) 1).
  pose proof (create_repr w "Head" : dll_repr w1 d1 [c1]) as Hrepr1.
  destruct (append_eq w1 d1 [c1] "A" Hrepr1 ltac:(cbn; int_range) Hf2)
    as (d2 & w2 & Hrun2 & Hrepr2 & Hcon2).
  pose proof (append_frame _ _ _ _ _ _ Hrepr1 Hf2 Hrun2) as Hfr2.
  rewrite (bind_eq _ _ _ _ _ Hrun2).
  set (c2 := new_cell w1 "A") in *. cbn [app] in Hrepr2.
  rewrite (bind_eq _ _ _ _ _ (traverse_dll_eq _ _ _ Hrepr2 ltac:(done))).
  set (w3 := World (mem w2) (console w2 +:+ render (texts [c1; c2]))).
  assert (dll_repr w3 d2 [c1; c2]) as Hrepr3 by by apply (dll_repr_mem w2).
  destruct (find_eq w3 d2 _ "Ba" Hrepr3) as (r & Hfind & Hres).
  apply find_result_absent in Hres as ->.
  2:{ apply (bool_decide_unpack _). vm_compute. exact I. }
  rewrite (bind_eq _ _ _ _ _ Hfind).
  rewrite (bind_eq _ _ _ _ _ (printf_eq _ _)).
  set (w4 := World (mem w3) (console w3 +:+ pretty (-1) +:+ newline)).
  assert (dll_repr w4 d2 [c1; c2]) as Hrepr4 by by apply (dll_repr_mem w2).
  destruct (free_dll_eq w4 d2 _ Hrepr4) as (w5 & Hrun5 & Hfreed & Hfr5 & Hcon5).
  rewrite (bind_eq _ _ _ _ _ Hrun5).
  (* the four locations the program allocated *)
  pose proof (node_loc_fresh w) as Ha1. pose proof (buf_loc_fresh w) as Hb1.
  pose proof (buf_loc_node_loc w) as Hb1a1.
  pose proof (node_loc_fresh w1) as Ha2. pose proof (buf_loc_fresh w1) as Hb2.
  pose proof (buf_loc_node_loc w1) as Hb2a2.
  assert (∀ x, mem w1 !! x = None → mem w !! x = None) as Hsub.
  { intros x Hx. destruct (mem w !! x) as [b|] eqn:Hwx; [|done].
    apply (with_cell_lookup w "Head" NULL NULL) in Hwx.
    fold c1 w1 in Hwx. by rewrite Hx in Hwx. }
  assert (mem w1 !! node_loc w = Some (node_of c1 NULL NULL)) as Hl1
    by apply with_cell_node.
  assert (mem w1 !! buf_loc w = Some (BChars MAX_DATA_LEN "Head")) as Hl2
    by apply with_cell_buf.
  assert (node_loc w1 ≠ node_loc w) as Hn1 by (intros E; by rewrite E, Hl1 in Ha2).
  assert (node_loc w1 ≠ buf_loc w) as Hn2 by (intros E; by rewrite E, Hl2 in Ha2).
  assert (buf_loc w1 ≠ node_loc w) as Hn3 by (intros E; by rewrite E, Hl1 in Hb2).
  assert (buf_loc w1 ≠ buf_loc w) as Hn4 by (intros E; by rewrite E, Hl2 in Hb2).
  destruct Hrepr2 as ((_ & Hbuf1 & _ & Hbuf2 & _) & _).
  cbn [c_buf c_text c1 c2 new_cell] in Hbuf1, Hbuf2.
  assert (∀ x, x ∈ nodes [c1; c2] ↔ x = node_loc w ∨ x = node_loc w1) as Hnodes.
  { intros x. cbn [nodes fmap list_fmap c1 c2 new_cell c_node].
    rewrite !elem_of_cons, elem_of_nil. tauto. }
  exists w5, (buf_loc w), (buf_loc w1). split_and!.
  - done.
  - rewrite Hcon5. unfold w4, w3. cbn [console]. rewrite Hcon2.
    by rewrite !string_app_assoc.
  - done.
  - done.
  - by apply Hsub.
  - apply map_eq. intros x.
    destruct (decide (x = buf_loc w1)) as [->|Hx4].
    { rewrite lookup_insert_eq, Hfr5; [done|]. rewrite Hnodes.
      intros [?|?]; congruence. }
    rewrite lookup_insert_ne by done.
    destruct (decide (x = buf_loc w)) as [->|Hx2].
    { rewrite lookup_insert_eq, Hfr5; [done|]. rewrite Hnodes.
      intros [?|?]; congruence. }
    rewrite lookup_insert_ne by done.
    destruct (decide (x = node_loc w)) as [->|Hx1].
    { rewrite Hfreed, Ha1; [done|]. apply Hnodes. by left. }
    destruct (decide (x = node_loc w1)) as [->|Hx3].
    { rewrite Hfreed, (Hsub _ Ha2); [done|]. apply Hnodes. by right. }
    rewrite Hfr5 by (rewrite Hnodes; intros [?|?]; congruence).
    change (mem w4) with (mem w2). rewrite Hfr2; [|..|done|done].
    + by apply with_cell_lookup_ne.
    + cbn [nodes fmap list_fmap c1 new_cell c_node].
      apply not_elem_of_cons. split; [done|apply not_elem_of_nil].
Qed.

(** X12. [append] on a well-formed list makes the new node the tail and
    raises [len] by one; on the empty list (as [delete] can leave it)
    the new node becomes the head as well, on any other list the head
    stays the one it was. *)
Theorem append_sets_tail w d cs txt :
  dll_repr w d cs → len d < INT_MAX → fits txt →
  ∃ d' w', append d txt w = Ok (d', w') ∧
           dll_repr w' d' (cs ++ [new_cell w txt]) ∧
           tail d' = Some (node_loc w) ∧
           len d' = len d + 1 ∧
           (cs = [] → head d' = Some (node_loc w)) ∧
           (cs ≠ [] → head d' = head d).
Proof.
  intros Hrepr Hlt Htxt.
  destruct (append_eq w d cs txt Hrepr Hlt Htxt)
    as (d' & w' & Hrun & Hrepr' & _).
  exists d', w'. split; [done|]. split; [done|].
  destruct Hrepr as (_ & _ & Hhd & _ & Hlen & _).
  destruct Hrepr' as (_ & _ & Hhd' & Htl' & Hlen' & _).
  rewrite last_ptr_snoc in Htl'. rewrite length_app in Hlen'.
  cbn [length] in Hlen'. split_and!; [done|lia| |].
  - by intros ->.
  - intros Hne. rewrite Hhd', Hhd, first_ptr_app. by destruct cs.
Qed.

Lemma append_sets_tail_witness :
  dll_repr world0 empty_dll [] ∧ len empty_dll < INT_MAX ∧ fits "B" ∧
  ∃ d' w', append empty_dll "B" world0 = Ok (d', w') ∧
           dll_repr w' d' ([] ++ [new_cell world0 "B"]) ∧
           tail d' = Some (node_loc world0) ∧
           len d' = len empty_dll + 1 ∧
           ([] = @nil cell → head d' = Some (node_loc world0)) ∧
           ([] ≠ @nil cell → head d' = head empty_dll).
Proof.
  assert (dll_repr world0 empty_dll []) as Hrepr.
  { apply (bool_decide_unpack _). vm_compute. exact I. }
  assert (len empty_dll < INT_MAX) as Hlt by (vm_compute; reflexivity).
  assert (fits "B") as Htxt by (vm_compute; reflexivity).
  split; [exact Hrepr|]. split; [exact Hlt|]. split; [exact Htxt|].
  exact (append_sets_tail world0 empty_dll [] "B" Hrepr Hlt Htxt).
Defined.
